(** * Upbit listing monitor (main.py): model and checked properties

    The script polls the exchange's market list, diffs it against the set
    seen before, and pushes alerts to the configured Telegram chats.  It is
    embedded here as a program in a small monad: the network, the clock and
    [time.sleep] are an oracle the program consults call by call, Python
    exceptions are a result constructor, and everything the program does to
    the outside (requests, log lines, sleeps, closing the session) is an
    event in the order it happens. *)

From Stdlib Require Import ZArith QArith String Ascii.
From stdpp Require Import gmap list sorting.

Local Open Scope Z_scope.
Local Open Scope nat_scope.

(** ** Python strings

    A [str] is a sequence of code points.  Slicing ([[:200]]), [strip] and
    the order used by [sorted] all work on code points. *)

Abbreviation pystr := (list N) (only parsing).

(** Literals of the script, written as Rocq strings (ASCII only). *)
Definition py (s : string) : pystr :=
  N_of_ascii <$> list_ascii_of_string s.

(** [a <= b] on [str]: lexicographic on code points. *)
Fixpoint str_leb (a b : pystr) : bool :=
  match a, b with
  | [], _ => true
  | _ :: _, [] => false
  | x :: a', y :: b' =>
      if (x <? y)%N then true
      else if (x =? y)%N then str_leb a' b' else false
  end.

Definition str_le (a b : pystr) : Prop := str_leb a b = true.

Global Instance str_le_dec a b : Decision (str_le a b).
Proof. unfold str_le. apply _. Defined.

(** [str.isspace] on one code point. *)
Definition isspace (c : N) : bool :=
  ((9 <=? c) && (c <=? 13) || (28 <=? c) && (c <=? 32)
   || (c =? 133) || (c =? 160) || (c =? 5760)
   || (8192 <=? c) && (c <=? 8202)
   || (c =? 8232) || (c =? 8233) || (c =? 8239) || (c =? 8287)
   || (c =? 12288))%N.

Fixpoint lstrip (s : pystr) : pystr :=
  match s with
  | c :: s' => if isspace c then lstrip s' else s
  | [] => []
  end.

(** [s.strip()] *)
Definition strip (s : pystr) : pystr := reverse (lstrip (reverse (lstrip s))).

(** [s.split(sep)] for a one-character separator: always at least one
    piece. *)
Fixpoint split (sep : N) (s : pystr) : list pystr :=
  match s with
  | [] => [[]]
  | c :: s' =>
      if (c =? sep)%N then [] :: split sep s'
      else match split sep s' with
           | piece :: rest => (c :: piece) :: rest
           | [] => [[c]]
           end
  end.

(** Truthiness of a [str] and of an optional [str]. *)
Definition str_truthy (s : pystr) : bool :=
  match s with [] => false | _ => true end.

Definition opt_truthy (s : option pystr) : bool :=
  match s with Some s => str_truthy s | None => false end.

(** ** Exceptions *)

(** The exception classes the script distinguishes; each carries the text
    [str(e)] gives.  [KeyboardInterrupt] is the only one that is not an
    [Exception]. *)
Inductive exn :=
  | KeyboardInterrupt
  | HTTPError (text : pystr)
  | ConnectionError (text : pystr)
  | Timeout (text : pystr)
  | RequestException (text : pystr)
  | ValueError (text : pystr)
  | KeyError (text : pystr)
  | OtherError (text : pystr).

Global Instance exn_eq_dec : EqDecision exn.
Proof. solve_decision. Defined.

Definition is_Exception (e : exn) : bool :=
  match e with KeyboardInterrupt => false | _ => true end.

Definition str_of_exn (e : exn) : pystr :=
  match e with
  | KeyboardInterrupt => []
  | HTTPError t | ConnectionError t | Timeout t | RequestException t
  | ValueError t | KeyError t | OtherError t => t
  end.

(** ** Data model *)

Abbreviation TickerSet := (gset (list N)) (only parsing).

(** One record of the market list: a JSON object with string members. *)
Abbreviation item := (gmap (list N) (list N)) (only parsing).

(** What [session.get] hands back: the status, and where decoding the body
    and walking it leads: the records of a list of objects, or the exception
    raised on the way ([response.json()] on a malformed body, the set
    comprehension on a payload of another shape). *)
Record response := {
  status_code : Z;
  json : exn + list item;
}.

(** The notifications the script composes, with the values interpolated into
    each template (timestamps and latencies are opaque readings). *)
Inductive message :=
  | MsgBootFailed
  | MsgStarted (pairs : nat)
  | MsgEscalation (errors : nat)
  | MsgListing (pair : pystr) (time latency : Z)
  | MsgListings (pairs : list pystr) (time latency : Z)
  | MsgStopped
  | MsgCritical (text : pystr).

Global Instance message_eq_dec : EqDecision message.
Proof. solve_decision. Defined.

(** ** The environment *)

Inductive get_reply :=
  | GetRaises (e : exn)
  | GetReturns (r : response) (latency : Z).

Inductive post_reply :=
  | PostRaises (e : exn)
  | PostReturns (status : Z) (body : pystr).

Global Instance post_reply_eq_dec : EqDecision post_reply.
Proof. solve_decision. Defined.

(** The k-th call of each kind gets the k-th answer.  [sleeps k = Some e]
    is an error raised at the k-th [time.sleep]: Ctrl+C arriving while the
    script is suspended, or an unexpected fault of the loop body. *)
Record oracle := {
  gets : nat → get_reply;
  posts : nat → post_reply;
  sleeps : nat → option exn;
  clock : nat → Z;
}.

Record counters := {
  n_get : nat;
  n_post : nat;
  n_sleep : nat;
  n_now : nat;
}.

Definition start : counters :=
  {| n_get := 0; n_post := 0; n_sleep := 0; n_now := 0 |}.

(** ** Events *)

Inductive logline :=
  | LogPostStatus (chat : pystr) (attempt : nat) (retries : Z) (status : Z) (body : pystr)
  | LogPostRaised (chat : pystr) (attempt : nat) (retries : Z) (e : exn)
  | LogUndelivered (chat : pystr) (retries : Z)
  | LogHTTPError (e : exn)
  | LogConnectionError (e : exn)
  | LogTimeout
  | LogRequestError (e : exn)
  | LogParseError (e : exn)
  | LogUnexpected (e : exn)
  | LogBootAttempt (attempt : nat)
  | LogBootRetry
  | LogStart
  | LogBootFailed
  | LogInitial (pairs : nat)
  | LogSkip (errors : nat)
  | LogEscalation (errors : nat)
  | LogRecovered
  | LogNewPairs (pairs : gset (list N))
  | LogDelisted (pairs : gset (list N))
  | LogStopSignal
  | LogCritical (e : exn).

Inductive level := INFO | WARNING | ERROR | CRITICAL.

Definition level_of (l : logline) : level :=
  match l with
  | LogPostStatus _ _ _ _ _ | LogPostRaised _ _ _ _ | LogUndelivered _ _ => ERROR
  | LogHTTPError _ | LogConnectionError _ | LogTimeout | LogRequestError _ => WARNING
  | LogParseError _ | LogUnexpected _ => ERROR
  | LogBootAttempt _ => INFO
  | LogBootRetry => WARNING
  | LogStart => INFO
  | LogBootFailed => ERROR
  | LogInitial _ => INFO
  | LogSkip _ => WARNING
  | LogEscalation _ => ERROR
  | LogRecovered | LogNewPairs _ | LogDelisted _ | LogStopSignal => INFO
  | LogCritical _ => CRITICAL
  end.

Inductive notice :=
  | NoticeMissingEnv
  | NoticeRecipients (n : nat)
  | NoticeBadChatIds.

Inductive event :=
  | EvPrint (n : notice)
  | EvOpen
  | EvLog (l : logline)
  | EvGet
  | EvSend (m : message)
  | EvPost (chat : pystr) (m : message) (r : post_reply)
  | EvSleep (seconds : Q)
  | EvNow
  | EvClose.

(** ** The monad *)

Inductive result (A : Type) :=
  | Ok (a : A)
  | Raised (e : exn)
  | OutOfFuel.
Arguments Ok {A} a.
Arguments Raised {A} e.
Arguments OutOfFuel {A}.

Definition M (A : Type) : Type := counters → result A * counters * list event.

Definition ret {A} (a : A) : M A := λ c, (Ok a, c, []).

(** Sequencing stops at the first exception; the events emitted so far are
    kept. *)
Definition bind {A B} (m : M A) (f : A → M B) : M B := λ c,
  match m c with
  | (Ok a, c1, ev1) => let '(r, c2, ev2) := f a c1 in (r, c2, ev1 ++ ev2)
  | (Raised e, c1, ev1) => (Raised e, c1, ev1)
  | (OutOfFuel, c1, ev1) => (OutOfFuel, c1, ev1)
  end.

Declare Scope M_scope.
Delimit Scope M_scope with M.
Bind Scope M_scope with M.
Notation "x ← y ; z" := (bind y (λ x, z))
  (at level 20, y at level 100, z at level 200, only parsing) : M_scope.
Notation "' x ← y ; z" := (bind y (λ x, z))
  (at level 20, x pattern, y at level 100, z at level 200, only parsing) : M_scope.
Notation "x ;; z" := (bind x (λ _, z))
  (at level 100, z at level 200, only parsing, right associativity) : M_scope.
Local Open Scope M_scope.

Definition raise {A} (e : exn) : M A := λ c, (Raised e, c, []).

Definition out_of_fuel {A} : M A := λ c, (OutOfFuel, c, []).

Definition emit (e : event) : M unit := λ c, (Ok tt, c, [e]).

Definition log (l : logline) : M unit := emit (EvLog l).

(** [try: m  except BaseException as e: h e]; the caller's handler decides
    what it re-raises. *)
Definition catch {A} (m : M A) (h : exn → M A) : M A := λ c,
  match m c with
  | (Raised e, c1, ev1) => let '(r, c2, ev2) := h e c1 in (r, c2, ev1 ++ ev2)
  | other => other
  end.

(** [try: m  finally: f] *)
Definition finally {A} (m : M A) (f : M unit) : M A := λ c,
  match m c with
  | (OutOfFuel, c1, ev1) => (OutOfFuel, c1, ev1)
  | (r, c1, ev1) =>
      match f c1 with
      | (Ok _, c2, ev2) => (r, c2, ev1 ++ ev2)
      | (Raised e, c2, ev2) => (Raised e, c2, ev1 ++ ev2)
      | (OutOfFuel, c2, ev2) => (OutOfFuel, c2, ev1 ++ ev2)
      end
  end.

(** ** Global settings of the script *)

Definition CHECK_INTERVAL_SECONDS : Q := 1 # 3.
Definition MAX_RETRIES : nat := 3.
Definition RETRY_DELAY : Q := 2.
Definition max_consecutive_errors : nat := 10.
Definition market_key : pystr := py "market".

(** ** The program *)

Section Program.

Context (O : oracle).

(** The chat ids the configuration step produced. *)
Context (TELEGRAM_CHAT_IDS : list pystr).

(** *** Effects *)

Definition session_get : M get_reply := λ c,
  (Ok (gets O (n_get c)),
   {| n_get := S (n_get c); n_post := n_post c;
      n_sleep := n_sleep c; n_now := n_now c |},
   [EvGet]).

(** One [session.post]; the event records what came back. *)
Definition session_post (chat : pystr) (m : message) : M post_reply := λ c,
  let r := posts O (n_post c) in
  (Ok r,
   {| n_get := n_get c; n_post := S (n_post c);
      n_sleep := n_sleep c; n_now := n_now c |},
   [EvPost chat m r]).

Definition sleep (seconds : Q) : M unit := λ c,
  let c' := {| n_get := n_get c; n_post := n_post c;
               n_sleep := S (n_sleep c); n_now := n_now c |} in
  match sleeps O (n_sleep c) with
  | None => (Ok tt, c', [EvSleep seconds])
  | Some e => (Raised e, c', [EvSleep seconds])
  end.

Definition now : M Z := λ c,
  (Ok (clock O (n_now c)),
   {| n_get := n_get c; n_post := n_post c;
      n_sleep := n_sleep c; n_now := S (n_now c) |},
   [EvNow]).

Definition session_close : M unit := emit EvClose.

(** *** send_telegram_message *)

(** The [for attempt in range(retries)] loop for one chat, with [left]
    iterations to go; the result is [sent_to_this_chat]. *)
Fixpoint post_attempts (chat : pystr) (m : message) (retries : Z)
    (attempt left : nat) : M bool :=
  match left with
  | 0 => ret false
  | S left' =>
      r ← session_post chat m;
      match r with
      | PostRaises e =>
          if is_Exception e then
            log (LogPostRaised chat (S attempt) retries e);;
            (if (Z.of_nat attempt <? retries - 1)%Z then sleep 1 else ret tt);;
            post_attempts chat m retries (S attempt) left'
          else raise e
      | PostReturns status body =>
          if (status =? 200)%Z then ret true
          else
            log (LogPostStatus chat (S attempt) retries status body);;
            (if (Z.of_nat attempt <? retries - 1)%Z then sleep 1 else ret tt);;
            post_attempts chat m retries (S attempt) left'
      end
  end.

(** The body of [for chat_id in TELEGRAM_CHAT_IDS]. *)
Definition send_to_chat (chat : pystr) (m : message) (retries : Z)
    (all_successful : bool) : M bool :=
  sent_to_this_chat ← post_attempts chat m retries 0 (Z.to_nat retries);
  if sent_to_this_chat then ret all_successful
  else log (LogUndelivered chat retries);; ret false.

Fixpoint send_to_chats (chats : list pystr) (m : message) (retries : Z)
    (all_successful : bool) : M bool :=
  match chats with
  | [] => ret all_successful
  | chat :: rest =>
      all_successful' ← send_to_chat chat m retries all_successful;
      send_to_chats rest m retries all_successful'
  end.

(** [EvSend] marks the call. *)
Definition send_telegram_message (m : message) (retries : Z) : M bool :=
  emit (EvSend m);;
  send_to_chats TELEGRAM_CHAT_IDS m retries true.

(** *** get_upbit_markets *)

(** [response.raise_for_status()]: an [HTTPError] for 4xx and 5xx. *)
Definition raise_for_status (r : response) : option exn :=
  if ((400 <=? status_code r) && (status_code r <? 600))%Z
  then Some (HTTPError []) else None.

(** [{item['market'] for item in data if 'market' in item}] *)
Definition tickers_of (data : list item) : gset (list N) :=
  list_to_set (omap (λ it : gmap (list N) (list N), it !! market_key) data).

(** The [try] block: the tuple it returns, or the exception it raises. *)
Definition fetch (reply : get_reply) : exn + (gset (list N) * Z) :=
  match reply with
  | GetRaises e => inl e
  | GetReturns r latency =>
      match raise_for_status r with
      | Some e => inl e
      | None =>
          match json r with
          | inl e => inl e
          | inr data => inr (tickers_of data, latency)
          end
      end
  end.

(** The log line of each [except] clause, in the order they are tried. *)
Definition fetch_log (e : exn) : logline :=
  match e with
  | HTTPError _ => LogHTTPError e
  | ConnectionError _ => LogConnectionError e
  | Timeout _ => LogTimeout
  | RequestException _ => LogRequestError e
  | ValueError _ | KeyError _ => LogParseError e
  | KeyboardInterrupt | OtherError _ => LogUnexpected e
  end.

(** Every [Exception] is logged and turned into [(None, 0)]; nothing else
    is caught. *)
Definition fetch_handler (e : exn) : M (option (gset (list N)) * Z) :=
  if is_Exception e then log (fetch_log e);; ret (None, 0%Z)
  else raise e.

Definition get_upbit_markets : M (option (gset (list N)) * Z) :=
  reply ← session_get;
  match fetch reply with
  | inr (tickers_set, latency) => ret (Some tickers_set, latency)
  | inl e => fetch_handler e
  end.

(** Truthiness of what [get_upbit_markets] returns: [None] and the empty
    set are both falsy. *)
Definition truthy (markets : option (gset (list N))) : bool :=
  match markets with
  | Some s => bool_decide (s ≠ ∅)
  | None => false
  end.

(** *** wait_for_initial_markets *)

(** One attempt after its fetch: return the set, or go on with [next]. *)
Definition after_attempt (attempt : nat) (next : M (option (gset (list N))))
    (fetched : option (gset (list N)) * Z) : M (option (gset (list N))) :=
  let '(markets, _) := fetched in
  if truthy markets then ret markets
  else
    (if attempt <? MAX_RETRIES - 1
     then log LogBootRetry;; sleep RETRY_DELAY
     else ret tt);;
    next.

(** [for attempt in range(MAX_RETRIES)], with [left] iterations to go;
    falling out of the loop returns [None]. *)
Fixpoint initial_attempts (attempt left : nat) : M (option (gset (list N))) :=
  match left with
  | 0 => ret None
  | S left' =>
      log (LogBootAttempt (S attempt));;
      fetched ← get_upbit_markets;
      after_attempt attempt (initial_attempts (S attempt) left') fetched
  end.

Definition wait_for_initial_markets : M (option (gset (list N))) :=
  initial_attempts 0 MAX_RETRIES.

(** *** monitor_upbit_listings *)

Record MonitorState := {
  current_markets_set : gset (list N);
  consecutive_errors : nat;
}.

Definition new_listings (current new : gset (list N)) : gset (list N) :=
  new ∖ current.

Definition delisted_pairs (current new : gset (list N)) : gset (list N) :=
  current ∖ new.

(** [sorted(s)] for a set of strings. *)
Definition sorted (s : gset (list N)) : list pystr :=
  merge_sort str_le (elements s).

(** [if new_listings: ...] *)
Definition announce (added : gset (list N)) (latency : Z) : M unit :=
  if bool_decide (added ≠ ∅) then
    detection_time ← now;
    log (LogNewPairs added);;
    if bool_decide (size added = 1) then
      match elements added with
      | ticker :: _ =>
          send_telegram_message (MsgListing ticker detection_time latency) 3;;
          ret tt
      | [] => raise (OtherError [])
      end
    else
      send_telegram_message
        (MsgListings (sorted added) detection_time latency) 3;;
      ret tt
  else ret tt.

(** The loop body after the fetch: the state the next iteration starts
    from. *)
Definition loop_step (st : MonitorState)
    (fetched : option (gset (list N)) * Z) : M MonitorState :=
  let '(new_markets_set, latency) := fetched in
  if negb (truthy new_markets_set) then
    let errors := S (consecutive_errors st) in
    log (LogSkip errors);;
    errors' ←
      (if max_consecutive_errors <=? errors then
         log (LogEscalation errors);;
         send_telegram_message (MsgEscalation errors) 3;;
         ret 0
       else ret errors);
    sleep (CHECK_INTERVAL_SECONDS * 3);;
    ret {| current_markets_set := current_markets_set st;
           consecutive_errors := errors' |}
  else
    let new := default ∅ new_markets_set in
    (if 0 <? consecutive_errors st then log LogRecovered else ret tt);;
    current' ←
      (if bool_decide (new ≠ current_markets_set st) then
         let added := new_listings (current_markets_set st) new in
         let removed := delisted_pairs (current_markets_set st) new in
         announce added latency;;
         (if bool_decide (removed ≠ ∅) then log (LogDelisted removed)
          else ret tt);;
         ret new
       else ret (current_markets_set st));
    sleep CHECK_INTERVAL_SECONDS;;
    ret {| current_markets_set := current'; consecutive_errors := 0 |}.

Definition loop_body (st : MonitorState) : M MonitorState :=
  fetched ← get_upbit_markets;
  loop_step st fetched.

(** [n] iterations of the loop body. *)
Fixpoint iterate (n : nat) (st : MonitorState) : M MonitorState :=
  match n with
  | 0 => ret st
  | S n' => st' ← loop_body st; iterate n' st'
  end.

(** [while True]: the loop only ends by an exception; after [fuel]
    iterations it is still running. *)
Definition while_true (fuel : nat) (st : MonitorState) : M unit :=
  iterate fuel st;; out_of_fuel.

(** The notification of each [except] clause around the loop. *)
Definition exit_alert (e : exn) : message :=
  match e with
  | KeyboardInterrupt => MsgStopped
  | _ => MsgCritical (take 200 (str_of_exn e))
  end.

(** The log line of each [except] clause around the loop. *)
Definition exit_log (e : exn) : logline :=
  match e with
  | KeyboardInterrupt => LogStopSignal
  | _ => LogCritical e
  end.

Definition loop_handler (e : exn) : M unit :=
  log (exit_log e);;
  send_telegram_message (exit_alert e) 3;;
  ret tt.

(** [try: while True: ...  except ...  finally: session.close()] *)
Definition guarded_loop (fuel : nat) (st : MonitorState) : M unit :=
  finally (catch (while_true fuel st) loop_handler) session_close.

(** Everything before the loop: [None] when the function has returned,
    the loop's first state otherwise. *)
Definition startup : M (option MonitorState) :=
  log LogStart;;
  initial ← wait_for_initial_markets;
  if negb (truthy initial) then
    log LogBootFailed;;
    send_telegram_message MsgBootFailed 3;;
    ret None
  else
    let s := default ∅ initial in
    log (LogInitial (size s));;
    send_telegram_message (MsgStarted (size s)) 3;;
    ret (Some {| current_markets_set := s; consecutive_errors := 0 |}).

Definition monitor_upbit_listings (fuel : nat) : M unit :=
  st ← startup;
  match st with
  | None => ret tt
  | Some st0 => guarded_loop fuel st0
  end.

End Program.

(** ** Module level: configuration and process exit *)

(** [os.environ.get] of the two variables. *)
Record environ := {
  UPBIT_TELEGRAM_TOKEN : option pystr;
  UPBIT_TELEGRAM_CHAT_ID : option pystr;
}.

Inductive exit_status :=
  | Exit (code : Z)
  | Uncaught (e : exn)
  | StillRunning.

(** The checks before any request is made: the chat ids, or the notice
    printed before [sys.exit(1)]. *)
Definition load_config (env : environ) : notice + list pystr :=
  if negb (opt_truthy (UPBIT_TELEGRAM_TOKEN env))
     || negb (opt_truthy (UPBIT_TELEGRAM_CHAT_ID env))
  then inl NoticeMissingEnv
  else
    let ids := strip <$> split 44 (default [] (UPBIT_TELEGRAM_CHAT_ID env)) in
    if forallb str_truthy ids then inr ids else inl NoticeBadChatIds.

(** The whole script on an environment, observed for [fuel] loop
    iterations. *)
Definition main (env : environ) (O : oracle) (fuel : nat)
    : exit_status * list event :=
  match load_config env with
  | inl n => (Exit 1, [EvPrint n])
  | inr ids =>
      let '(r, _, evs) := monitor_upbit_listings O ids fuel start in
      (match r with
       | Ok _ => Exit 0
       | Raised e => Uncaught e
       | OutOfFuel => StillRunning
       end,
       EvPrint (NoticeRecipients (length ids)) :: EvOpen :: evs)
  end.

(** ** Reading a run *)

(** The notifications dispatched: one per call of [send_telegram_message]. *)
Definition sends (evs : list event) : list message :=
  omap (λ e, match e with EvSend m => Some m | _ => None end) evs.

(** The delivery attempts made, with what each came back with. *)
Definition post_events (evs : list event) : list (pystr * message * post_reply) :=
  omap (λ e, match e with EvPost chat m r => Some (chat, m, r) | _ => None end) evs.

Definition is_close (e : event) : bool :=
  match e with EvClose => true | _ => false end.

Definition is_get (e : event) : bool :=
  match e with EvGet => true | _ => false end.

(** How often the session was closed, and how many fetches were made. *)
Definition closes (evs : list event) : nat := length (filter is_close evs).

Definition requests (evs : list event) : nat := length (filter is_get evs).

Definition is_200 (r : post_reply) : bool :=
  match r with
  | PostReturns status _ => (status =? 200)%Z
  | PostRaises _ => false
  end.

(** The replies one chat's attempts may see under a retry bound: at most
    [retries] of them, a success only as the last one, and giving up only
    when the bound is reached. *)
Definition attempt_run (retries : Z) (seg : list post_reply) : Prop :=
  length seg ≤ Z.to_nat retries
  ∧ (∀ i r, seg !! i = Some r → is_200 r = true → S i = length seg)
  ∧ (Forall (λ r, is_200 r = false) seg → length seg = Z.to_nat retries).

(** The attempts of a whole call, chat by chat. *)
Definition attempts_of (chats : list pystr) (m : message)
    (segs : list (list post_reply)) : list (pystr * message * post_reply) :=
  concat (zip_with (λ chat seg, (λ r, (chat, m, r)) <$> seg) chats segs).

(** The events that came before a run. *)
Definition prepend {A} (evs : list event) (run : result A * counters * list event)
    : result A * counters * list event :=
  let '(r, c, evs') := run in (r, c, evs ++ evs').

Definition after_get (c : counters) : counters :=
  {| n_get := S (n_get c); n_post := n_post c;
     n_sleep := n_sleep c; n_now := n_now c |}.

(** A fetch the callers treat as failed: an [Exception] inside
    [get_upbit_markets], or an empty set. *)
Definition failing (reply : get_reply) : bool :=
  match fetch reply with
  | inl e => is_Exception e
  | inr (s, _) => bool_decide (s = ∅)
  end.

(** A fetch the callers accept: a non-empty set. *)
Definition good (reply : get_reply) : bool :=
  match fetch reply with
  | inl _ => false
  | inr (s, _) => bool_decide (s ≠ ∅)
  end.

(** What [get_upbit_markets] returns on [reply], when it returns. *)
Definition returned (reply : get_reply) : option (gset (list N)) * Z :=
  match fetch reply with
  | inr (s, latency) => (Some s, latency)
  | inl _ => (None, 0%Z)
  end.

(** Ctrl+C during the request: the one thing the fetcher lets through. *)
Definition interrupted (reply : get_reply) : bool :=
  match fetch reply with
  | inl e => negb (is_Exception e)
  | inr _ => false
  end.

(** The set the loop holds after a fetch that got [reply]. *)
Definition next_current (cur : gset (list N)) (reply : get_reply)
    : gset (list N) :=
  match fetch reply with
  | inr (s, _) => if bool_decide (s ≠ ∅) then s else cur
  | inl _ => cur
  end.

(** The last accepted set among [replies], or [init]. *)
Definition last_good (init : gset (list N)) (replies : list get_reply)
    : gset (list N) :=
  foldl next_current init replies.

(** The failure counter after one more failed fetch. *)
Definition next_errors (errors : nat) : nat :=
  if max_consecutive_errors <=? S errors then 0 else S errors.

(** An action that dispatches nothing, fetches nothing and leaves the
    session open, however it ends. *)
Definition frame {A} (m : M A) : Prop :=
  ∀ c, sends (m c).2 = [] ∧ closes (m c).2 = 0 ∧ requests (m c).2 = 0
       ∧ n_get (m c).1.2 = n_get c.

(** From [c], the action dispatches exactly [ms], fetches nothing and
    leaves the session open, however it ends. *)
Definition dispatches {A} (m : M A) (c : counters) (ms : list message) : Prop :=
  sends (m c).2 = ms ∧ closes (m c).2 = 0 ∧ requests (m c).2 = 0
  ∧ n_get (m c).1.2 = n_get c.

(** The notification for a non-empty set of new tickers. *)
Definition listing_message (added : gset (list N)) (time latency : Z) : message :=
  if bool_decide (size added = 1)
  then MsgListing (default [] (head (elements added))) time latency
  else MsgListings (sorted added) time latency.

(** What one loop iteration dispatches, given what its fetch returned and
    the clock reading [time]. *)
Definition expected_sends (st : MonitorState)
    (fetched : option (gset (list N)) * Z) (time : Z) : list message :=
  if truthy fetched.1 then
    let added := new_listings (current_markets_set st) (default ∅ fetched.1) in
    if bool_decide (added ≠ ∅) then [listing_message added time fetched.2]
    else []
  else
    if max_consecutive_errors <=? S (consecutive_errors st)
    then [MsgEscalation (S (consecutive_errors st))] else [].

(** The state one loop iteration leaves, given what its fetch returned. *)
Definition next_state (st : MonitorState)
    (fetched : option (gset (list N)) * Z) : MonitorState :=
  if truthy fetched.1 then
    {| current_markets_set := default ∅ fetched.1; consecutive_errors := 0 |}
  else
    {| current_markets_set := current_markets_set st;
       consecutive_errors := next_errors (consecutive_errors st) |}.

(** An action that returns normally from every state. *)
Definition returns {A} (m : M A) : Prop :=
  ∀ c, ∃ a c' evs, m c = (Ok a, c', evs).

(** No [time.sleep] raises and no [session.post] is interrupted. *)
Definition quiet (O : oracle) : Prop :=
  (∀ k, sleeps O k = None) ∧ (∀ k, posts O k ≠ PostRaises KeyboardInterrupt).

(** ** Sample inputs *)

Definition KRW_BTC : pystr := py "KRW-BTC".
Definition KRW_ETH : pystr := py "KRW-ETH".
Definition KRW_SOL : pystr := py "KRW-SOL".
Definition KRW_XRP : pystr := py "KRW-XRP".

(** A 200 answer listing [tickers], one record each, after [latency]. *)
Definition listing (tickers : list pystr) (latency : Z) : get_reply :=
  GetReturns
    {| status_code := 200;
       json := inr ((λ t, {[ market_key := t ]}) <$> tickers) |}
    latency.

Definition two_chats : list pystr := [py "1001"; py "1002"].

Definition env_ok : environ :=
  {| UPBIT_TELEGRAM_TOKEN := Some (py "12345:token");
     UPBIT_TELEGRAM_CHAT_ID := Some (py "1001, 1002") |}.

Definition env_no_token : environ :=
  {| UPBIT_TELEGRAM_TOKEN := None;
     UPBIT_TELEGRAM_CHAT_ID := Some (py "1001, 1002") |}.

(** Telegram answers 200 to everything, nothing interrupts; the exchange
    answers as [replies] says. *)
Definition calm (replies : nat → get_reply) : oracle :=
  {| gets := replies;
     posts := λ _, PostReturns 200 [];
     sleeps := λ _, None;
     clock := λ k, Z.of_nat k |}.

(** The first chat fails three times (500, a connection error, 500), the
    second is reached at once. *)
Definition O_flaky : oracle :=
  {| gets := λ _, listing [KRW_BTC] 7;
     posts := λ k,
       match k with
       | 0 => PostReturns 500 []
       | 1 => PostRaises (ConnectionError [])
       | 2 => PostReturns 500 []
       | _ => PostReturns 200 []
       end;
     sleeps := λ _, None;
     clock := λ k, Z.of_nat k |}.

Definition st_btc : MonitorState :=
  {| current_markets_set := {[KRW_BTC]}; consecutive_errors := 0 |}.

Definition st_btc_eth : MonitorState :=
  {| current_markets_set := {[KRW_BTC; KRW_ETH]}; consecutive_errors := 0 |}.


(** A timeout, a new listing, then an empty market list. *)
Definition O_mixed : oracle :=
  calm (λ k, match k with
             | 0 => GetRaises (Timeout [])
             | 1 => listing [KRW_BTC; KRW_ETH; KRW_XRP] 7
             | _ => listing [] 5
             end).

(** The exchange answers 200 with an empty list. *)
Definition O_empty : oracle := calm (λ _, listing [] 5).

(** The exchange answers 200 with records that carry no market field. *)
Definition unlabelled : response :=
  {| status_code := 200;
     json := inr [ {[ py "symbol" := KRW_BTC ]}; {[ py "symbol" := KRW_ETH ]} ] |}.

Definition O_unlabelled : oracle := calm (λ _, GetReturns unlabelled 5).

(** Two tickers listed at once. *)
Definition O_batch : oracle := calm (λ _, listing [KRW_SOL; KRW_BTC; KRW_ETH] 7).

(** The exchange cannot be reached. *)
Definition O_down : oracle := calm (λ _, GetRaises (ConnectionError [])).

(** The exchange answers; Ctrl+C arrives during the third fetch of the
    loop. *)
Definition O_stopped : oracle :=
  calm (λ k, if k <? 3 then listing [KRW_BTC; KRW_ETH] 7
             else GetRaises KeyboardInterrupt).

(** The exchange answers; the first sleep of the loop fails with an
    unexpected error. *)
Definition O_crash : oracle :=
  {| gets := λ _, listing [KRW_BTC; KRW_ETH] 7;
     posts := λ _, PostReturns 200 [];
     sleeps := λ k, match k with 0 => Some (OtherError (py "boom")) | _ => None end;
     clock := λ k, Z.of_nat k |}.

(** One ticker listed. *)
Definition O_single : oracle :=
  calm (λ _, listing [KRW_BTC; KRW_ETH; KRW_XRP] 7).

(** Nine timeouts in a row, then the exchange is back. *)
Definition O_nine : oracle :=
  calm (λ k, if k <? 9 then GetRaises (Timeout []) else listing [KRW_BTC; KRW_ETH] 7).

(** ** Further readings of strings and runs *)

(** [sep.join(pieces)] *)
Fixpoint join (sep : N) (pieces : list pystr) : pystr :=
  match pieces with
  | [] => []
  | [piece] => piece
  | piece :: rest => piece ++ sep :: join sep rest
  end.

(** How often [sep] occurs in [s]. *)
Definition occurrences (sep : N) (s : pystr) : nat :=
  length (filter (λ c, c = sep) s).

(** A string of whitespace only (the empty one included). *)
Definition blank (s : pystr) : bool := forallb isspace s.

(** The pauses of a run, in order. *)
Definition sleep_events (evs : list event) : list Q :=
  omap (λ e, match e with EvSleep d => Some d | _ => None end) evs.

(** The chats a run gave up on, in order. *)
Definition undelivered (evs : list event) : list pystr :=
  omap (λ e, match e with
             | EvLog (LogUndelivered chat _) => Some chat
             | _ => None
             end) evs.

(** The exchange answers; Ctrl+C arrives during the second bootstrapping
    fetch. *)
Definition O_early_stop : oracle :=
  calm (λ k, match k with
             | 0 => GetRaises (Timeout [])
             | _ => GetRaises KeyboardInterrupt
             end).

(** Ctrl+C during the third fetch of the loop, and again while the stop
    notification is being posted. *)
Definition O_stopped_twice : oracle :=
  {| gets := gets O_stopped;
     posts := λ k, match k with
                   | 0 | 1 => PostReturns 200 []
                   | _ => PostRaises KeyboardInterrupt
                   end;
     sleeps := λ _, None;
     clock := λ k, Z.of_nat k |}.

(** Telegram rejects everything. *)
Definition O_rejecting : oracle :=
  {| gets := λ _, listing [KRW_BTC] 7;
     posts := λ _, PostReturns 403 [];
     sleeps := λ _, None;
     clock := λ k, Z.of_nat k |}.

(** The first chat is reached at once, the second post is interrupted. *)
Definition O_post_interrupted : oracle :=
  {| gets := λ _, listing [KRW_BTC] 7;
     posts := λ k, match k with
                   | 0 => PostReturns 200 []
                   | _ => PostRaises KeyboardInterrupt
                   end;
     sleeps := λ _, None;
     clock := λ k, Z.of_nat k |}.

(** ** Further readings: the last fetch, and one chat's share of a call *)

(** The last set a fetch returned among [replies], empty or not, or
    [init]. *)
Definition last_fetched (init : gset (list N)) (replies : list get_reply)
    : gset (list N) :=
  foldl (λ cur r, match fetch r with inr (s, _) => s | inl _ => cur end)
    init replies.

(** The two log lines of a failed attempt. *)
Definition retry_log (l : logline) : Prop :=
  match l with
  | LogPostStatus _ _ _ _ _ | LogPostRaised _ _ _ _ => True
  | _ => False
  end.

(** What the attempts for one chat can leave behind with [left] attempts to
    go: nothing, one post that ends them (a success, or Ctrl+C), a failed
    post followed by its log line and a pause before the attempts that
    remain, or a failed last post with its log line only. *)
Inductive attempts_trace (chat : pystr) (m : message) : nat → list event → Prop :=
  | trace_none left : attempts_trace chat m left []
  | trace_last left r : attempts_trace chat m (S left) [EvPost chat m r]
  | trace_retry left r l rest :
      retry_log l → is_200 r = false → 1 ≤ left →
      attempts_trace chat m left rest →
      attempts_trace chat m (S left)
        (EvPost chat m r :: EvLog l :: EvSleep 1 :: rest)
  | trace_exhausted r l :
      retry_log l → is_200 r = false →
      attempts_trace chat m 1 [EvPost chat m r; EvLog l].

(** Every post of [run] goes to [chat] and carries [m]. *)
Definition posts_to (chat : pystr) (m : message) (run : list event) : Prop :=
  Forall (λ p, p.1.1 = chat ∧ p.1.2 = m) (post_events run).

(** One chat's share of a call under a bound of [bound] attempts: its posts
    all go to the chat, there are at most [bound] of them and at most
    [bound - 1] pauses, every pause lasts one second and comes after a
    failed attempt that was not the [bound]-th, and the chat is logged as
    undelivered at most once. *)
Definition chat_run (chat : pystr) (m : message) (bound : nat)
    (run : list event) : Prop :=
  posts_to chat m run
  ∧ length (post_events run) ≤ bound
  ∧ length (sleep_events run) ≤ bound - 1
  ∧ (∀ pre d post,
       run = pre ++ EvSleep d :: post →
       d = 1%Q
       ∧ length (post_events pre) < bound
       ∧ ∃ r, last (post_events pre) = Some (chat, m, r) ∧ is_200 r = false)
  ∧ (undelivered run = [] ∨ undelivered run = [chat]).

(** One chat's share of a call in which every attempt was rejected. *)
Definition rejected_run (chat : pystr) (m : message) (bound : nat)
    (run : list event) : Prop :=
  posts_to chat m run
  ∧ length (post_events run) = bound
  ∧ sleep_events run = replicate (bound - 1) 1%Q
  ∧ undelivered run = [chat].

(** ** The order on strings *)

Lemma str_leb_refl a : str_leb a a = true.
Proof.
  induction a as [|x a IH]; simpl; [done|].
  rewrite N.ltb_irrefl, N.eqb_refl. exact IH.
Qed.

Lemma str_leb_total a b : str_leb a b = true ∨ str_leb b a = true.
Proof.
  revert b. induction a as [|x a IH]; intros [|y b]; simpl; auto.
  destruct (N.ltb_spec x y), (N.ltb_spec y x); auto; try lia.
  assert (x = y) as -> by lia. rewrite N.eqb_refl. apply IH.
Qed.

Lemma str_leb_trans a b c :
  str_leb a b = true → str_leb b c = true → str_leb a c = true.
Proof.
  revert b c. induction a as [|x a IH]; intros [|y b] [|z c]; simpl; try done.
  destruct (N.ltb_spec x y), (N.ltb_spec y z), (N.ltb_spec x z);
    try done; try lia;
    destruct (N.eqb_spec x y), (N.eqb_spec y z), (N.eqb_spec x z);
    try done; try lia.
  apply IH.
Qed.

Lemma str_leb_antisym a b :
  str_leb a b = true → str_leb b a = true → a = b.
Proof.
  revert b. induction a as [|x a IH]; intros [|y b]; simpl; try done.
  intros H1 H2.
  destruct (x <? y)%N eqn:E1, (y <? x)%N eqn:E2,
    (x =? y)%N eqn:E3, (y =? x)%N eqn:E4; try done;
    rewrite ?N.ltb_lt, ?N.ltb_ge, ?N.eqb_eq, ?N.eqb_neq in *; try lia.
  subst. f_equal. auto.
Qed.

Global Instance str_le_total : Total str_le.
Proof. intros a b. apply str_leb_total. Qed.

Global Instance str_le_trans : Transitive str_le.
Proof. intros a b c. apply str_leb_trans. Qed.

Global Instance str_le_antisym : AntiSymm (=) str_le.
Proof. intros a b. apply str_leb_antisym. Qed.

Lemma sorted_Sorted (s : gset (list N)) : StronglySorted str_le (sorted s).
Proof. apply StronglySorted_merge_sort; apply _. Qed.

Lemma sorted_Permutation (s : gset (list N)) : sorted s ≡ₚ elements s.
Proof. apply merge_sort_Permutation. Qed.

(** ** Running the monad *)

Lemma bind_Ok {A B} (m : M A) (f : A → M B) c b c' evs :
  bind m f c = (Ok b, c', evs) →
  ∃ a c1 ev1 ev2,
    m c = (Ok a, c1, ev1) ∧ f a c1 = (Ok b, c', ev2) ∧ evs = ev1 ++ ev2.
Proof.
  unfold bind. destruct (m c) as [[[a| |] c1] ev1]; try done.
  destruct (f a c1) as [[r c2] ev2] eqn:Hf. intros [= -> -> <-].
  by exists a, c1, ev1, ev2.
Qed.

Lemma bind_run_Ok {A B} (m : M A) (f : A → M B) c a c1 ev1 :
  m c = (Ok a, c1, ev1) →
  bind m f c = prepend ev1 (f a c1).
Proof. unfold bind. by intros ->. Qed.

Lemma sends_app evs1 evs2 : sends (evs1 ++ evs2) = sends evs1 ++ sends evs2.
Proof. apply omap_app. Qed.

Lemma post_events_app evs1 evs2 :
  post_events (evs1 ++ evs2) = post_events evs1 ++ post_events evs2.
Proof. apply omap_app. Qed.

Lemma closes_app evs1 evs2 : closes (evs1 ++ evs2) = closes evs1 + closes evs2.
Proof. unfold closes. by rewrite filter_app, length_app. Qed.

Lemma requests_app evs1 evs2 :
  requests (evs1 ++ evs2) = requests evs1 + requests evs2.
Proof. unfold requests. by rewrite filter_app, length_app. Qed.

(** ** The dispatcher *)

Section Dispatcher.

Context (O : oracle).

Lemma sleep_Ok d c a c1 ev :
  sleep O d c = (Ok a, c1, ev) →
  ev = [EvSleep d] ∧ n_post c1 = n_post c ∧ n_get c1 = n_get c.
Proof. unfold sleep. destruct (sleeps O (n_sleep c)); by intros [= <- <- <-]. Qed.

Lemma pause_Ok (b : bool) d c a c1 ev :
  (if b then sleep O d else ret tt) c = (Ok a, c1, ev) →
  post_events ev = [] ∧ sends ev = [] ∧ n_post c1 = n_post c ∧ n_get c1 = n_get c.
Proof.
  destruct b.
  - intros (-> & ? & ?)%sleep_Ok. done.
  - by intros [= <- <- <-].
Qed.

(** One more failed attempt in front of a chat's run. *)
Lemma attempts_cons_fail r (seg : list post_reply) :
  is_200 r = false →
  (∀ i r', seg !! i = Some r' → is_200 r' = true → S i = length seg) →
  ∀ i r', (r :: seg) !! i = Some r' → is_200 r' = true → S i = length (r :: seg).
Proof.
  intros Hr Hseg [|i] r'; simpl.
  - intros [= <-]. congruence.
  - intros ??. f_equal. eauto.
Qed.

(** After a failed attempt: the log line and the pause change nothing the
    next attempts depend on. *)
Lemma retry_Ok l (b : bool) (k : M bool) c sent c' evs :
  (log l;; (if b then sleep O 1 else ret tt);; k) c = (Ok sent, c', evs) →
  ∃ c1 evs',
    k c1 = (Ok sent, c', evs') ∧ n_post c1 = n_post c
    ∧ post_events evs = post_events evs' ∧ sends evs = sends evs'.
Proof.
  intros (? & c2 & ev3 & ev4 & Hlog & Hk & ->)%bind_Ok.
  unfold log, emit in Hlog. simplify_eq.
  apply bind_Ok in Hk as (? & c3 & ev5 & ev6 & Hpause & Hrec & ->).
  apply pause_Ok in Hpause as (Hp1 & Hp2 & Hp3 & _).
  exists c3, ev6. rewrite !post_events_app, !sends_app, Hp1, Hp2. done.
Qed.

Lemma post_attempts_Ok chat m retries left : ∀ attempt c sent c' evs,
  post_attempts O chat m retries attempt left c = (Ok sent, c', evs) →
  ∃ seg,
    post_events evs = (λ r, (chat, m, r)) <$> seg
    ∧ sends evs = []
    ∧ seg = posts O <$> seq (n_post c) (length seg)
    ∧ n_post c' = n_post c + length seg
    ∧ length seg ≤ left
    ∧ (∀ i r, seg !! i = Some r → is_200 r = true → S i = length seg)
    ∧ (sent = true ↔ Exists (λ r, is_200 r = true) seg)
    ∧ (sent = false → length seg = left)
    ∧ (0 < left → seg ≠ []).
Proof.
  induction left as [|left IH]; intros attempt c sent c' evs; simpl.
  - intros [= <- <- <-]. exists []. split_and!; try done; try lia.
    split; [done|]. by intros ?%Exists_nil.
  - intros (r & c1 & ev1 & ev2 & Hpost & Hrest & ->)%bind_Ok.
    unfold session_post in Hpost. injection Hpost as <- <- <-.
    set (r := posts O (n_post c)) in *.
    assert (is_200 r = true ∨ is_200 r = false ∧ ∃ c1 evs',
      post_attempts O chat m retries (S attempt) left c1 = (Ok sent, c', evs')
      ∧ n_post c1 = S (n_post c)
      ∧ post_events ev2 = post_events evs' ∧ sends ev2 = sends evs')
      as [Hr|(Hr & c1 & evs' & Hrec & Hc1 & Hpe & Hse)].
    { destruct r as [e|status body]; simpl.
      - right. split; [done|]. destruct (is_Exception e); [|done].
        by apply retry_Ok in Hrest.
      - destruct (status =? 200)%Z; [by left|right]. split; [done|].
        by apply retry_Ok in Hrest. }
    + assert (ev2 = [] ∧ sent = true ∧ c' =
        {| n_get := n_get c; n_post := S (n_post c);
           n_sleep := n_sleep c; n_now := n_now c |}) as (-> & -> & ->).
      { destruct r as [e|status body]; simpl in Hr; [done|].
        rewrite Hr in Hrest. by injection Hrest as <- <- <-. }
      exists [r]. simpl. split_and!; try done; try lia.
      * intros [|i] r'; simpl; [done|]. by rewrite lookup_nil.
      * split; [|done]. intros _. by apply Exists_cons; left.
    + apply IH in Hrec
        as (seg & Hev & Hsd & Hseg & Hn & Hlen & Hlast & Hsent & Hex & _).
      exists (r :: seg). simpl.
      rewrite Hpe, Hse, Hev, Hsd. rewrite Hc1 in Hseg, Hn.
      split_and!; try done; try lia.
      * f_equal. exact Hseg.
      * by apply attempts_cons_fail.
      * rewrite Hsent, Exists_cons. intuition congruence.
      * intros ?. f_equal. auto.
Qed.

Lemma send_to_chats_Ok m retries chats : ∀ all c b c' evs,
  send_to_chats O chats m retries all c = (Ok b, c', evs) →
  ∃ segs,
    length segs = length chats
    ∧ post_events evs = attempts_of chats m segs
    ∧ concat segs = posts O <$> seq (n_post c) (length (concat segs))
    ∧ n_post c' = n_post c + length (concat segs)
    ∧ Forall (attempt_run retries) segs
    ∧ (b = true ↔
         all = true ∧ Forall (λ seg, Exists (λ r, is_200 r = true) seg) segs)
    ∧ ((0 < retries)%Z → Forall (λ seg, seg ≠ []) segs).
Proof.
  induction chats as [|chat rest IH]; intros all c b c' evs; simpl.
  - intros [= <- <- <-]. exists []. split_and!; try done; try lia.
    split; [by intros ->|]. by intros [-> _].
  - intros (all' & c1 & ev1 & ev2 & Hone & Hrest & ->)%bind_Ok.
    apply bind_Ok in Hone as (sent & c0 & ev0 & ev0' & Hatt & Hflag & ->).
    apply post_attempts_Ok in Hatt
      as (seg & Hev & _ & Hseg & Hn & Hlen & Hlast & Hsent & Hex & Hne).
    assert (post_events ev0' = [] ∧ c1 = c0 ∧ all' = (all && sent)%bool)
      as (Hev0 & -> & ->).
    { destruct sent; unfold bind, log, emit, ret in Hflag; simpl in Hflag;
        simplify_eq; by rewrite ?andb_true_r, ?andb_false_r. }
    apply IH in Hrest
      as (segs & Hlens & Hevs & Hsegs & Hns & Hruns & Hb & Hnes).
    exists (seg :: segs). unfold attempts_of in *. simpl.
    rewrite !post_events_app, Hev, Hev0, Hevs, length_app. simpl.
    rewrite Hn in Hsegs, Hns.
    split_and!.
    + lia.
    + by rewrite app_nil_r.
    + rewrite seq_app, fmap_app. by f_equal.
    + lia.
    + constructor; [|done]. split_and!; [done..|].
      intros Hnone. apply Hex. destruct sent; [|done].
      destruct Hsent as [Hsent _]. specialize (Hsent eq_refl).
      apply Exists_exists in Hsent as (r & Hin & Hr).
      rewrite Forall_forall in Hnone. specialize (Hnone r Hin). congruence.
    + rewrite Hb, Forall_cons, andb_true_iff, Hsent. tauto.
    + intros Hpos. constructor; [apply Hne; lia|auto].
Qed.

(** *** What a call leaves untouched *)

Lemma frame_ret {A} (a : A) : frame (ret a).
Proof. by intros c. Qed.

Lemma frame_raise {A} e : frame (raise (A:=A) e).
Proof. by intros c. Qed.

Lemma frame_log l : frame (log l).
Proof. by intros c. Qed.

Lemma frame_sleep d : frame (sleep O d).
Proof. intros c. unfold sleep. by destruct (sleeps O (n_sleep c)). Qed.

Lemma frame_now : frame (now O).
Proof. by intros c. Qed.

Lemma frame_session_post chat m : frame (session_post O chat m).
Proof. by intros c. Qed.

Lemma frame_bind {A B} (m : M A) (f : A → M B) :
  frame m → (∀ a, frame (f a)) → frame (bind m f).
Proof.
  intros Hm Hf c. specialize (Hm c). unfold bind.
  destruct (m c) as [[[a| |] c1] ev1]; simpl in *; try done.
  specialize (Hf a c1). destruct (f a c1) as [[r c2] ev2]; simpl in *.
  rewrite sends_app, closes_app, requests_app.
  destruct Hm as (-> & -> & -> & <-), Hf as (-> & -> & -> & ->). done.
Qed.

Lemma frame_if {A} (b : bool) (m1 m2 : M A) :
  frame m1 → frame m2 → frame (if b then m1 else m2).
Proof. by destruct b. Qed.

Lemma frame_post_attempts chat m retries left : ∀ attempt,
  frame (post_attempts O chat m retries attempt left).
Proof.
  induction left as [|left IH]; intros attempt; simpl; [apply frame_ret|].
  apply frame_bind; [apply frame_session_post|]. intros [e|status body].
  - apply frame_if; [|apply frame_raise].
    repeat (apply frame_bind; [|intros ?]);
      auto using frame_log, frame_if, frame_sleep, frame_ret.
  - apply frame_if; [apply frame_ret|].
    repeat (apply frame_bind; [|intros ?]);
      auto using frame_log, frame_if, frame_sleep, frame_ret.
Qed.

Lemma frame_send_to_chats m retries chats : ∀ all,
  frame (send_to_chats O chats m retries all).
Proof.
  induction chats as [|chat rest IH]; intros all; simpl; [apply frame_ret|].
  apply frame_bind; [|done]. apply frame_bind; [apply frame_post_attempts|].
  intros []; [apply frame_ret|].
  apply frame_bind; [apply frame_log|intros ?; apply frame_ret].
Qed.

(** A call is one dispatch, whatever happens to its attempts. *)
Lemma send_telegram_message_events chats m retries c :
  sends (send_telegram_message O chats m retries c).2 = [m]
  ∧ closes (send_telegram_message O chats m retries c).2 = 0
  ∧ requests (send_telegram_message O chats m retries c).2 = 0
  ∧ n_get (send_telegram_message O chats m retries c).1.2 = n_get c.
Proof.
  unfold send_telegram_message, bind, emit.
  pose proof (frame_send_to_chats m retries chats true c) as (Hs & Hc & Hr & Hn).
  destruct (send_to_chats O chats m retries true c) as [[r c2] ev2].
  simpl in *. change (EvSend m :: ev2) with ([EvSend m] ++ ev2).
  rewrite closes_app, requests_app, Hs, Hc, Hr. done.
Qed.

(** *** Calls that return *)

Lemma returns_ret {A} (a : A) : returns (ret a).
Proof. intros c. by eexists _, _, _. Qed.

Lemma returns_log l : returns (log l).
Proof. intros c. by eexists _, _, _. Qed.

Lemma returns_now : returns (now O).
Proof. intros c. by eexists _, _, _. Qed.

Lemma returns_sleep d : quiet O → returns (sleep O d).
Proof. intros [Hs _] c. unfold sleep. rewrite Hs. by eexists _, _, _. Qed.

Lemma returns_bind {A B} (m : M A) (f : A → M B) :
  returns m → (∀ a, returns (f a)) → returns (bind m f).
Proof.
  intros Hm Hf c. destruct (Hm c) as (a & c1 & ev1 & Hrun).
  destruct (Hf a c1) as (b & c2 & ev2 & Hk).
  rewrite (bind_run_Ok _ _ _ _ _ _ Hrun), Hk. by eexists _, _, _.
Qed.

Lemma returns_if {A} (b : bool) (m1 m2 : M A) :
  returns m1 → returns m2 → returns (if b then m1 else m2).
Proof. by destruct b. Qed.

Lemma post_attempts_returns chat m retries left :
  quiet O → ∀ attempt, returns (post_attempts O chat m retries attempt left).
Proof.
  intros HO. induction left as [|left IH]; intros attempt; simpl.
  { apply returns_ret. }
  assert (∀ l, returns
    (log l;; (if (Z.of_nat attempt <? retries - 1)%Z
              then sleep O 1 else ret tt);;
     post_attempts O chat m retries (S attempt) left)) as Hretry.
  { intros l. apply returns_bind; [apply returns_log|intros _].
    apply returns_bind; [|intros _; apply IH].
    apply returns_if; [by apply returns_sleep|apply returns_ret]. }
  intros c. erewrite bind_run_Ok by reflexivity.
  pose proof (proj2 HO (n_post c)) as Hpost.
  match goal with |- context [?k ?c1] =>
    match type of c1 with counters =>
      assert (∃ a c' evs, k c1 = (Ok a, c', evs)) as (a & c' & evs & ->) end end.
  - destruct (posts O (n_post c)) as [e|status body].
    + destruct e; try done; apply Hretry.
    + destruct (status =? 200)%Z; [apply returns_ret|apply Hretry].
  - by eexists _, _, _.
Qed.

Lemma send_to_chats_returns m retries chats :
  quiet O → ∀ all, returns (send_to_chats O chats m retries all).
Proof.
  intros HO. induction chats as [|chat rest IH]; intros all; simpl.
  { apply returns_ret. }
  apply returns_bind; [|done]. apply returns_bind.
  { by apply post_attempts_returns. }
  intros []; [apply returns_ret|].
  apply returns_bind; [apply returns_log|intros _; apply returns_ret].
Qed.

Lemma send_telegram_message_returns chats m retries c :
  quiet O → ∃ b c' evs,
    send_telegram_message O chats m retries c = (Ok b, c', evs)
    ∧ sends evs = [m] ∧ closes evs = 0 ∧ requests evs = 0
    ∧ n_get c' = n_get c.
Proof.
  intros HO.
  pose proof (send_telegram_message_events chats m retries c) as Hev.
  unfold send_telegram_message, bind, emit in *.
  destruct (send_to_chats_returns m retries chats HO true c)
    as (b & c' & evs & Hrun).
  rewrite Hrun in *. simpl in *. by eexists _, _, _.
Qed.

End Dispatcher.

(** ** The loop body *)

Section Monitor.

Context (O : oracle) (chats : list pystr).

Lemma frame_dispatches {A} (m : M A) c : frame m → dispatches m c [].
Proof. intros Hm. apply Hm. Qed.

Lemma dispatches_send m retries c :
  dispatches (send_telegram_message O chats m retries) c [m].
Proof. apply send_telegram_message_events. Qed.

(** Something that cannot fail and shows nothing, then the rest. *)
Lemma dispatches_after {A B} (m : M A) (f : A → M B) c a c1 ev1 ms :
  m c = (Ok a, c1, ev1) →
  sends ev1 = [] → closes ev1 = 0 → requests ev1 = 0 → n_get c1 = n_get c →
  dispatches (f a) c1 ms → dispatches (bind m f) c ms.
Proof.
  intros Hm Hs Hc Hr Hn (H1 & H2 & H3 & H4). unfold dispatches.
  rewrite (bind_run_Ok _ _ _ _ _ _ Hm).
  destruct (f a c1) as [[r c2] ev2]. simpl in *.
  rewrite sends_app, closes_app, requests_app, Hs, Hc, Hr, H1, H2, H3, H4. done.
Qed.

(** The dispatching part, then something that shows nothing. *)
Lemma dispatches_then {A B} (m : M A) (f : A → M B) c ms :
  dispatches m c ms → (∀ a, frame (f a)) → dispatches (bind m f) c ms.
Proof.
  intros (H1 & H2 & H3 & H4) Hf. unfold dispatches, bind.
  destruct (m c) as [[[a| |] c1] ev1]; simpl in *; try done.
  destruct (Hf a c1) as (G1 & G2 & G3 & G4).
  destruct (f a c1) as [[r c2] ev2]. simpl in *.
  rewrite sends_app, closes_app, requests_app, H1, H2, H3, G1, G2, G3, G4, H4.
  by rewrite app_nil_r.
Qed.

Lemma get_upbit_markets_run c :
  get_upbit_markets O c =
    match fetch (gets O (n_get c)) with
    | inr (s, latency) => (Ok (Some s, latency), after_get c, [EvGet])
    | inl e =>
        if is_Exception e
        then (Ok (None, 0%Z), after_get c, [EvGet; EvLog (fetch_log e)])
        else (Raised e, after_get c, [EvGet])
    end.
Proof.
  unfold get_upbit_markets, bind, session_get.
  destruct (fetch (gets O (n_get c))) as [e|[s latency]]; [|done].
  unfold fetch_handler. by destruct (is_Exception e).
Qed.

Lemma size_1_elements (s : gset (list N)) :
  size s = 1 → ∃ x, elements s = [x] ∧ s = {[x]}.
Proof.
  intros (x & Hx)%size_1_elem_of. apply leibniz_equiv in Hx. subst s.
  exists x. by rewrite elements_singleton.
Qed.

Lemma dispatches_announce added latency c :
  dispatches (announce O chats added latency) c
    (if bool_decide (added ≠ ∅)
     then [listing_message added (clock O (n_now c)) latency] else []).
Proof.
  unfold announce, listing_message. case_bool_decide as Hne.
  2: { apply frame_dispatches, frame_ret. }
  eapply dispatches_after; [reflexivity|done..|].
  eapply dispatches_after; [reflexivity|done..|].
  case_bool_decide as Hsz.
  - destruct (size_1_elements _ Hsz) as (x & -> & _). simpl.
    apply dispatches_then; [apply dispatches_send|intros ?; apply frame_ret].
  - apply dispatches_then; [apply dispatches_send|intros ?; apply frame_ret].
Qed.

(** What an iteration shows, however it ends. *)
Lemma dispatches_loop_step st fetched c :
  dispatches (loop_step O chats st fetched) c
    (expected_sends st fetched (clock O (n_now c))).
Proof.
  destruct fetched as [new latency]. unfold loop_step, expected_sends.
  cbn [fst snd]. destruct (truthy new) eqn:Hnew; cbn [negb].
  - eapply dispatches_after.
    { instantiate (1 := if 0 <? consecutive_errors st then [EvLog LogRecovered] else []).
      instantiate (1 := c). instantiate (1 := tt).
      by destruct (0 <? consecutive_errors st). }
    1-4: by destruct (0 <? consecutive_errors st).
    apply dispatches_then.
    2: { intros ?. apply frame_bind; [apply frame_sleep|intros ?; apply frame_ret]. }
    case_bool_decide as Hdiff.
    + apply dispatches_then; [apply dispatches_announce|].
      intros ?. apply frame_bind; [|intros ?; apply frame_ret].
      apply frame_if; [apply frame_log|apply frame_ret].
    + assert (new_listings (current_markets_set st) (default ∅ new) = ∅) as ->.
      { unfold new_listings. rewrite Hdiff.
        apply leibniz_equiv, difference_diag. }
      rewrite bool_decide_false by (by intros []).
      apply frame_dispatches, frame_ret.
  - eapply dispatches_after; [reflexivity|done..|].
    apply dispatches_then.
    2: { intros ?. apply frame_bind; [apply frame_sleep|intros ?; apply frame_ret]. }
    destruct (max_consecutive_errors <=? S (consecutive_errors st)).
    + eapply dispatches_after; [reflexivity|done..|].
      apply dispatches_then; [apply dispatches_send|intros ?; apply frame_ret].
    + apply frame_dispatches, frame_ret.
Qed.

Lemma get_upbit_markets_Ok c fetched c' evs :
  get_upbit_markets O c = (Ok fetched, c', evs) →
  fetched = returned (gets O (n_get c)) ∧ c' = after_get c
  ∧ interrupted (gets O (n_get c)) = false
  ∧ sends evs = [] ∧ closes evs = 0 ∧ requests evs = 1.
Proof.
  rewrite get_upbit_markets_run. unfold returned, interrupted.
  destruct (fetch (gets O (n_get c))) as [e|[s latency]].
  - destruct (is_Exception e); [|done]. by intros [= <- <- <-].
  - by intros [= <- <- <-].
Qed.

Lemma get_upbit_markets_returns c :
  interrupted (gets O (n_get c)) = false →
  ∃ evs, get_upbit_markets O c
         = (Ok (returned (gets O (n_get c))), after_get c, evs)
    ∧ sends evs = [] ∧ closes evs = 0 ∧ requests evs = 1.
Proof.
  rewrite get_upbit_markets_run. unfold returned, interrupted.
  destruct (fetch (gets O (n_get c))) as [e|[s latency]].
  - destruct (is_Exception e); [|done]. by eexists.
  - by eexists.
Qed.

Lemma loop_step_Ok st fetched c st' c' evs :
  loop_step O chats st fetched c = (Ok st', c', evs) →
  st' = next_state st fetched.
Proof.
  destruct fetched as [new latency]. unfold loop_step, next_state.
  cbn [fst snd]. destruct (truthy new) eqn:Hnew; cbn [negb].
  - intros (? & ? & ? & ? & _ & H & ->)%bind_Ok.
    apply bind_Ok in H as (cur' & ? & ? & ? & Hcur & H & ->).
    apply bind_Ok in H as (? & ? & ? & ? & _ & H & ->).
    unfold ret in H. simplify_eq. f_equal.
    case_bool_decide as Hdiff.
    + apply bind_Ok in Hcur as (? & ? & ? & ? & _ & H & ->).
      apply bind_Ok in H as (? & ? & ? & ? & _ & H & ->).
      unfold ret in H. by simplify_eq.
    + unfold ret in Hcur. by simplify_eq.
  - intros (? & ? & ? & ? & _ & H & ->)%bind_Ok.
    apply bind_Ok in H as (errors' & ? & ? & ? & Herr & H & ->).
    apply bind_Ok in H as (? & ? & ? & ? & _ & H & ->).
    unfold ret in H. simplify_eq. f_equal. unfold next_errors.
    destruct (max_consecutive_errors <=? S (consecutive_errors st)).
    + apply bind_Ok in Herr as (? & ? & ? & ? & _ & H & ->).
      apply bind_Ok in H as (? & ? & ? & ? & _ & H & ->).
      unfold ret in H. by simplify_eq.
    + unfold ret in Herr. by simplify_eq.
Qed.

Lemma returns_send m retries :
  quiet O → returns (send_telegram_message O chats m retries).
Proof.
  intros HO c.
  destruct (send_telegram_message_returns O chats m retries c HO)
    as (b & c' & evs & -> & _). by eexists _, _, _.
Qed.

Lemma returns_announce added latency :
  quiet O → returns (announce O chats added latency).
Proof.
  intros HO. unfold announce. case_bool_decide; [|apply returns_ret].
  apply returns_bind; [apply returns_now|intros t].
  apply returns_bind; [apply returns_log|intros _].
  case_bool_decide as Hsz.
  - destruct (size_1_elements _ Hsz) as (x & -> & _).
    apply returns_bind; [by apply returns_send|intros _; apply returns_ret].
  - apply returns_bind; [by apply returns_send|intros _; apply returns_ret].
Qed.

Lemma loop_step_returns st fetched :
  quiet O → returns (loop_step O chats st fetched).
Proof.
  intros HO. destruct fetched as [new latency]. unfold loop_step.
  destruct (negb (truthy new)).
  - apply returns_bind; [apply returns_log|intros _].
    apply returns_bind.
    { apply returns_if; [|apply returns_ret].
      apply returns_bind; [apply returns_log|intros _].
      apply returns_bind; [by apply returns_send|intros _; apply returns_ret]. }
    intros ?. apply returns_bind; [by apply returns_sleep|].
    intros _; apply returns_ret.
  - apply returns_bind.
    { apply returns_if; [apply returns_log|apply returns_ret]. }
    intros _. apply returns_bind.
    { apply returns_if; [|apply returns_ret].
      apply returns_bind; [by apply returns_announce|intros _].
      apply returns_bind; [|intros _; apply returns_ret].
      apply returns_if; [apply returns_log|apply returns_ret]. }
    intros ?. apply returns_bind; [by apply returns_sleep|].
    intros _; apply returns_ret.
Qed.

(** One iteration that completes. *)
Lemma loop_body_Ok st c st' c' evs :
  loop_body O chats st c = (Ok st', c', evs) →
  interrupted (gets O (n_get c)) = false
  ∧ st' = next_state st (returned (gets O (n_get c)))
  ∧ n_get c' = S (n_get c)
  ∧ sends evs = expected_sends st (returned (gets O (n_get c))) (clock O (n_now c))
  ∧ closes evs = 0 ∧ requests evs = 1.
Proof.
  intros (fetched & c1 & ev1 & ev2 & Hget & Hstep & ->)%bind_Ok.
  apply get_upbit_markets_Ok in Hget as (-> & -> & Hint & Hs & Hc & Hr).
  pose proof (dispatches_loop_step st (returned (gets O (n_get c))) (after_get c))
    as (H1 & H2 & H3 & H4).
  rewrite Hstep in H1, H2, H3, H4. simpl in H1, H2, H3, H4.
  apply loop_step_Ok in Hstep as ->.
  rewrite sends_app, closes_app, requests_app, Hs, Hc, Hr, H1, H2, H3.
  done.
Qed.

(** One iteration, when nothing interrupts it. *)
Lemma loop_body_returns st c :
  quiet O → interrupted (gets O (n_get c)) = false →
  ∃ c' evs,
    loop_body O chats st c
    = (Ok (next_state st (returned (gets O (n_get c)))), c', evs)
    ∧ n_get c' = S (n_get c)
    ∧ sends evs = expected_sends st (returned (gets O (n_get c))) (clock O (n_now c))
    ∧ closes evs = 0 ∧ requests evs = 1.
Proof.
  intros HO Hint.
  destruct (get_upbit_markets_returns c Hint) as (ev1 & Hget & _).
  destruct (loop_step_returns st (returned (gets O (n_get c))) HO (after_get c))
    as (st' & c' & ev2 & Hstep).
  assert (loop_body O chats st c = (Ok st', c', ev1 ++ ev2)) as Hrun.
  { unfold loop_body. rewrite (bind_run_Ok _ _ _ _ _ _ Hget), Hstep. done. }
  pose proof (loop_body_Ok _ _ _ _ _ Hrun) as (_ & -> & ?).
  by eexists _, _.
Qed.

(** What an iteration dispatches, however it ends. *)
Lemma loop_body_sends st c :
  interrupted (gets O (n_get c)) = false →
  sends (loop_body O chats st c).2
  = expected_sends st (returned (gets O (n_get c))) (clock O (n_now c)).
Proof.
  intros Hint.
  destruct (get_upbit_markets_returns c Hint) as (ev1 & Hget & Hs & _).
  unfold loop_body. rewrite (bind_run_Ok _ _ _ _ _ _ Hget).
  pose proof (dispatches_loop_step st (returned (gets O (n_get c))) (after_get c))
    as (H1 & _).
  destruct (loop_step O chats st _ (after_get c)) as [[r c2] ev2].
  simpl in *. by rewrite sends_app, Hs, H1.
Qed.

End Monitor.

(** ** Runs of iterations *)

Section Runs.

Context (O : oracle) (chats : list pystr).

Local Arguments Nat.modulo : simpl never.
Local Arguments Nat.div : simpl never.

Lemma failing_returned reply :
  failing reply = true →
  interrupted reply = false ∧ truthy (returned reply).1 = false.
Proof.
  unfold failing, interrupted, returned, truthy.
  destruct (fetch reply) as [e|[s latency]]; simpl.
  - by intros ->.
  - intros Hs%bool_decide_eq_true. split; [done|].
    apply bool_decide_eq_false. by intros [].
Qed.


Lemma next_state_current st reply :
  current_markets_set (next_state st (returned reply))
  = next_current (current_markets_set st) reply.
Proof.
  unfold next_state, next_current, returned, truthy.
  destruct (fetch reply) as [e|[s latency]]; simpl; [done|].
  by case_bool_decide.
Qed.

Lemma last_good_failures init replies :
  Forall (λ r, ∃ e, fetch r = inl e) replies → last_good init replies = init.
Proof.
  unfold last_good. revert init.
  induction replies as [|r replies IH]; intros init; simpl; [done|].
  intros [[e He] Hrest]%Forall_cons. rewrite IH by done.
  unfold next_current. by rewrite He.
Qed.

Lemma last_good_rejected init replies :
  Forall (λ r, good r = false) replies → last_good init replies = init.
Proof.
  unfold last_good. revert init.
  induction replies as [|r replies IH]; intros init; simpl; [done|].
  intros [Hr Hrest]%Forall_cons. rewrite IH by done.
  unfold next_current, good in *.
  destruct (fetch r) as [e|[s latency]]; [done|]. by rewrite Hr.
Qed.

Lemma last_good_cases init replies :
  last_good init replies = init
  ∨ ∃ r latency, r ∈ replies
      ∧ fetch r = inr (last_good init replies, latency).
Proof.
  unfold last_good. revert init.
  induction replies as [|r replies IH]; intros init; simpl; [by left|].
  destruct (IH (next_current init r)) as [Heq|(r' & latency & Hin & Hr')].
  - rewrite Heq. unfold next_current.
    destruct (fetch r) as [e|[s latency]] eqn:Hr; [by left|].
    case_bool_decide; [|by left].
    right. exists r, latency. split; [apply list_elem_of_here|done].
  - right. exists r', latency. split; [by apply list_elem_of_further|done].
Qed.

Lemma iterate_Ok n : ∀ st c st' c' evs,
  iterate O chats n st c = (Ok st', c', evs) →
  current_markets_set st'
  = last_good (current_markets_set st) (gets O <$> seq (n_get c) n)
  ∧ n_get c' = n_get c + n ∧ closes evs = 0 ∧ requests evs = n.
Proof.
  induction n as [|n IH]; intros st c st' c' evs; simpl.
  - intros [= <- <- <-]. split_and!; try done; lia.
  - intros (st1 & c1 & ev1 & ev2 & Hbody & Hrest & ->)%bind_Ok.
    apply loop_body_Ok in Hbody as (_ & -> & Hn & _ & Hc & Hr).
    apply IH in Hrest as (-> & Hn' & Hc' & Hr').
    rewrite closes_app, requests_app, Hc, Hr, Hc', Hr', Hn', Hn.
    rewrite next_state_current. unfold last_good. simpl.
    split_and!; try done; lia.
Qed.


End Runs.

(** ** Delistings *)

Lemma delisting_logged (O : oracle) (chats : list pystr)
    (st : MonitorState) (c : counters) (new : gset (list N)) (latency : Z) :
  fetch (gets O (n_get c)) = inr (new, latency) →
  new ≠ ∅ →
  new_listings (current_markets_set st) new = ∅ →
  delisted_pairs (current_markets_set st) new ≠ ∅ →
  EvLog (LogDelisted (delisted_pairs (current_markets_set st) new))
    ∈ (loop_body O chats st c).2.
Proof.
  intros Hfetch Hnew Hadded Hremoved.
  assert (new ≠ current_markets_set st) as Hdiff.
  { intros ->. apply Hremoved. unfold delisted_pairs.
    apply leibniz_equiv, difference_diag. }
  unfold loop_body. erewrite bind_run_Ok.
  2: { rewrite get_upbit_markets_run, Hfetch. reflexivity. }
  unfold loop_step, truthy, announce. cbn [default from_option id].
  rewrite (bool_decide_true (new ≠ ∅)) by done. cbn [negb].
  rewrite (bool_decide_true (new ≠ current_markets_set st)) by done.
  rewrite Hadded. rewrite (bool_decide_false (∅ ≠ ∅)) by (by intros []).
  rewrite (bool_decide_true _ Hremoved).
  unfold sleep, bind, log, emit, ret, prepend.
  destruct (0 <? consecutive_errors st), (sleeps O _); cbn;
    repeat ((apply list_elem_of_here) || (apply list_elem_of_further)).
Qed.

(** ** Start-up and shutdown *)

Section Lifecycle.

Context (O : oracle) (chats : list pystr).

(** One failed attempt, then the rest of the attempts. *)
Lemma attempt_failing attempt next c :
  quiet O → failing (gets O (n_get c)) = true →
  ∃ c1 ev1,
    (log (LogBootAttempt (S attempt));;
     fetched ← get_upbit_markets O;
     after_attempt O attempt next fetched) c = prepend ev1 (next c1)
    ∧ n_get c1 = S (n_get c)
    ∧ sends ev1 = [] ∧ closes ev1 = 0 ∧ requests ev1 = 1.
Proof.
  intros HO (Hint & Hfalsy)%failing_returned.
  destruct (get_upbit_markets_returns O c Hint) as (evg & Hget & Hs & Hc & Hr).
  destruct (returned (gets O (n_get c))) as [markets latency] eqn:Hret.
  cbn [fst] in Hfalsy.
  assert (returns (if attempt <? MAX_RETRIES - 1
                   then log LogBootRetry;; sleep O RETRY_DELAY
                   else ret tt)) as Hpause.
  { apply returns_if; [|apply returns_ret].
    apply returns_bind; [apply returns_log|intros _; by apply returns_sleep]. }
  destruct (Hpause (after_get c)) as ([] & c1 & evp & Hp).
  assert (frame (if attempt <? MAX_RETRIES - 1
                 then log LogBootRetry;; sleep O RETRY_DELAY
                 else ret tt)) as Hframe.
  { apply frame_if; [|apply frame_ret].
    apply frame_bind; [apply frame_log|intros _; apply frame_sleep]. }
  destruct (Hframe (after_get c)) as (Hps & Hpc & Hpr & Hpn).
  rewrite Hp in Hps, Hpc, Hpr, Hpn. cbn [fst snd] in Hps, Hpc, Hpr, Hpn.
  exists c1, ([EvLog (LogBootAttempt (S attempt))] ++ evg ++ evp).
  split.
  - erewrite bind_run_Ok by reflexivity.
    rewrite (bind_run_Ok _ _ _ _ _ _ Hget).
    unfold after_attempt. rewrite Hfalsy.
    rewrite (bind_run_Ok _ _ _ _ _ _ Hp).
    destruct (next c1) as [[r c2] ev2]. unfold prepend.
    by rewrite <- !app_assoc.
  - rewrite !sends_app, !closes_app, !requests_app, Hs, Hc, Hr, Hps, Hpc, Hpr.
    done.
Qed.





Lemma loop_body_closes st c : closes (loop_body O chats st c).2 = 0.
Proof.
  unfold loop_body, bind. rewrite get_upbit_markets_run.
  destruct (fetch (gets O (n_get c))) as [e|[s latency]].
  - destruct (is_Exception e); [|done].
    pose proof (dispatches_loop_step O chats st (None, 0%Z) (after_get c))
      as (_ & Hc & _).
    destruct (loop_step O chats st (None, 0%Z) (after_get c)) as [[r c2] ev2].
    cbn [fst snd] in *. by rewrite closes_app, Hc.
  - pose proof (dispatches_loop_step O chats st (Some s, latency) (after_get c))
      as (_ & Hc & _).
    destruct (loop_step O chats st (Some s, latency) (after_get c))
      as [[r c2] ev2].
    cbn [fst snd] in *. by rewrite closes_app, Hc.
Qed.

Lemma iterate_closes n : ∀ st c, closes (iterate O chats n st c).2 = 0.
Proof.
  induction n as [|n IH]; intros st c; cbn [iterate]; [done|].
  unfold bind. pose proof (loop_body_closes st c) as Hc.
  destruct (loop_body O chats st c) as [[[st1| |] c1] ev1]; try done.
  specialize (IH st1 c1).
  destruct (iterate O chats n st1 c1) as [[r c2] ev2].
  cbn [fst snd] in *. by rewrite closes_app, Hc, IH.
Qed.

Lemma dispatches_loop_handler e c :
  dispatches (loop_handler O chats e) c [exit_alert e].
Proof.
  unfold loop_handler.
  eapply dispatches_after; [reflexivity|done..|].
  apply dispatches_then; [apply dispatches_send|intros ?; apply frame_ret].
Qed.

(** The loop ended by an exception and the handler's notification went
    through: the function returns normally, the session closed last. *)
Lemma guarded_loop_exit fuel st0 c e c1 ev1 b c2 ev2 :
  iterate O chats fuel st0 c = (Raised e, c1, ev1) →
  send_telegram_message O chats (exit_alert e) 3 c1 = (Ok b, c2, ev2) →
  guarded_loop O chats fuel st0 c
  = (Ok tt, c2, ev1 ++ EvLog (exit_log e) :: ev2 ++ [EvClose]).
Proof.
  intros Hrun Hsend.
  unfold guarded_loop, finally, catch, while_true, bind at 1. rewrite Hrun.
  unfold loop_handler. erewrite bind_run_Ok by reflexivity.
  rewrite (bind_run_Ok _ _ _ _ _ _ Hsend).
  unfold prepend, ret, session_close, emit. f_equal.
  rewrite app_nil_r, <- app_assoc. done.
Qed.

(** While the loop has not raised, the session stays open. *)
Lemma guarded_loop_running fuel st0 c st c1 ev1 :
  iterate O chats fuel st0 c = (Ok st, c1, ev1) →
  guarded_loop O chats fuel st0 c = (OutOfFuel, c1, ev1).
Proof.
  intros Hrun.
  unfold guarded_loop, finally, catch, while_true, bind. rewrite Hrun.
  unfold out_of_fuel. by rewrite app_nil_r.
Qed.

(** Every way out of the loop closes the session exactly once. *)
Lemma guarded_loop_closes_once fuel st0 c :
  (guarded_loop O chats fuel st0 c).1.1 ≠ OutOfFuel →
  closes (guarded_loop O chats fuel st0 c).2 = 1.
Proof.
  unfold guarded_loop, finally, catch, while_true, bind.
  pose proof (iterate_closes fuel st0 c) as Hc.
  destruct (iterate O chats fuel st0 c) as [[[st| |] c1] ev1]; try done.
  pose proof (dispatches_loop_handler e c1) as (_ & Hh & _).
  destruct (loop_handler O chats e c1) as [[[[]|e'|] c2] ev2];
    cbn [fst snd session_close emit] in *; try done;
    intros _; by rewrite !closes_app, Hc, Hh.
Qed.

End Lifecycle.

Lemma tickers_of_no_market (data : list (gmap (list N) (list N))) :
  Forall (λ it : gmap (list N) (list N), it !! market_key = None) data →
  tickers_of data = ∅.
Proof.
  unfold tickers_of. induction 1 as [|it data Hit _ IH]; [done|].
  simpl. by rewrite Hit.
Qed.

(** Transport and status failures are logged as warnings, parse failures
    and anything unexpected as errors. *)
Lemma fetch_log_level (e : exn) :
  level_of (fetch_log e)
  = match e with
    | HTTPError _ | ConnectionError _ | Timeout _ | RequestException _ => WARNING
    | _ => ERROR
    end.
Proof. by destruct e. Qed.

Lemma quiet_calm (replies : nat → get_reply) : quiet (calm replies).
Proof. split; intros k; [reflexivity|discriminate]. Qed.

(** ** Scenarios *)

Example scenario_single_listing :
  ∃ c' evs,
    loop_body O_single two_chats st_btc_eth start
    = (Ok {| current_markets_set := {[KRW_BTC; KRW_ETH; KRW_XRP]};
             consecutive_errors := 0 |}, c', evs)
    ∧ sends evs = [MsgListing KRW_XRP 0 7].
Proof. eexists _, _. split; vm_compute; reflexivity. Qed.

Example scenario_batch_listing :
  sends (loop_body O_batch two_chats st_btc start).2
  = [MsgListings [KRW_ETH; KRW_SOL] 0 7].
Proof. vm_compute. reflexivity. Qed.

Example scenario_nine_failures :
  ∃ c' evs,
    iterate O_nine two_chats 10 st_btc_eth start = (Ok st_btc_eth, c', evs)
    ∧ sends evs = [].
Proof. eexists _, _. split; vm_compute; reflexivity. Qed.

Example scenario_chat_ids :
  load_config env_ok = inr two_chats
  ∧ load_config env_no_token = inl NoticeMissingEnv
  ∧ load_config {| UPBIT_TELEGRAM_TOKEN := Some (py "t");
                   UPBIT_TELEGRAM_CHAT_ID := Some (py "1001,,1002") |}
    = inl NoticeBadChatIds.
Proof. split_and!; vm_compute; reflexivity. Qed.

(** ** Checked properties *)

(** C4, as amended.  For all previous sets A and fetched sets B, the added
    tickers B - A and the removed tickers A - B are disjoint, and
    A ∪ added = B ∪ removed (both are A ∪ B). *)
Theorem diff_consistent (A B : gset (list N)) :
  new_listings A B ## delisted_pairs A B
  ∧ A ∪ new_listings A B = B ∪ delisted_pairs A B.
Proof.
  unfold new_listings, delisted_pairs. split.
  { apply elem_of_disjoint. intros x. rewrite !elem_of_difference. tauto. }
  apply set_eq. intros x. rewrite !elem_of_union, !elem_of_difference.
  destruct (decide (x ∈ A)), (decide (x ∈ B)); tauto.
Qed.

(** C4 as the specification words it (A ∪ removed = B ∪ added) fails: the
    left side is A and the right side is B. *)
Lemma diff_as_stated_fails :
  ¬ (∀ A B : gset (list N),
       new_listings A B ## delisted_pairs A B
       ∧ A ∪ delisted_pairs A B = B ∪ new_listings A B).
Proof.
  intros H. destruct (H {[KRW_BTC]} ∅) as [_ Heq].
  assert (KRW_BTC ∈ (∅ ∪ new_listings {[KRW_BTC]} ∅ : gset (list N))) as Hin.
  { rewrite <- Heq. set_solver. }
  unfold new_listings in Hin. set_solver.
Qed.

(** C1, as amended.  After any number of completed loop iterations the
    current set is the last non-empty set a fetch returned (the starting set
    when there was none): iterations whose fetch returned the failure marker
    leave it unchanged, so do iterations whose fetch returned the empty set,
    and it is only ever replaced by a set that a fetch returned. *)
Theorem current_is_last_accepted_fetch (O : oracle) (chats : list pystr)
    (n : nat) (st : MonitorState) (c : counters)
    (st' : MonitorState) (c' : counters) (evs : list event) :
  iterate O chats n st c = (Ok st', c', evs) →
  let replies := gets O <$> seq (n_get c) n in
  current_markets_set st' = last_good (current_markets_set st) replies
  ∧ (Forall (λ r, ∃ e, fetch r = inl e) replies →
       current_markets_set st' = current_markets_set st)
  ∧ (current_markets_set st' = current_markets_set st
     ∨ ∃ r latency, r ∈ replies
         ∧ fetch r = inr (current_markets_set st', latency))
  ∧ (Forall (λ r, good r = false) replies →
       current_markets_set st' = current_markets_set st).
Proof.
  intros (Hcur & _)%iterate_Ok replies. fold replies in Hcur.
  rewrite Hcur. split_and!; [done| | |].
  - apply last_good_failures.
  - apply last_good_cases.
  - apply last_good_rejected.
Qed.

Lemma current_is_last_accepted_fetch_witness :
  let st' := {| current_markets_set := {[KRW_BTC; KRW_ETH; KRW_XRP]};
                consecutive_errors := 1 |} in
  let replies := gets O_mixed <$> seq 0 3 in
  current_markets_set st' = last_good (current_markets_set st_btc_eth) replies
  ∧ (Forall (λ r, ∃ e, fetch r = inl e) replies →
       current_markets_set st' = current_markets_set st_btc_eth)
  ∧ (current_markets_set st' = current_markets_set st_btc_eth
     ∨ ∃ r latency, r ∈ replies
         ∧ fetch r = inr (current_markets_set st', latency))
  ∧ (Forall (λ r, good r = false) replies →
       current_markets_set st' = current_markets_set st_btc_eth).
Proof.
  intros st'.
  apply (current_is_last_accepted_fetch O_mixed two_chats 3 st_btc_eth start st'
           (iterate O_mixed two_chats 3 st_btc_eth start).1.2
           (iterate O_mixed two_chats 3 st_btc_eth start).2).
  vm_compute. reflexivity.
Defined.

(** C1 as stated fails when a fetch succeeds with the empty set: the last
    successfully fetched set is then empty, and the loop still holds the
    set it had. *)
Lemma empty_fetch_is_not_current :
  ∃ st' c' evs,
    iterate O_mixed two_chats 3 st_btc_eth start = (Ok st', c', evs)
    ∧ fetch (gets O_mixed 2) = inr (∅, 5%Z)
    ∧ last_fetched (current_markets_set st_btc_eth) (gets O_mixed <$> seq 0 3) = ∅
    ∧ current_markets_set st'
      ≠ last_fetched (current_markets_set st_btc_eth) (gets O_mixed <$> seq 0 3).
Proof.
  eexists _, _, _. split_and!.
  - vm_compute. reflexivity.
  - vm_compute. reflexivity.
  - vm_compute. reflexivity.
  - vm_compute. discriminate.
Qed.



(** C3, as amended.  When the dispatcher returns, its delivery attempts are
    the chats' runs in order, one run per chat, each answered by the next
    replies of the network; a run has at most [retries] attempts, a success
    only as its last attempt (retrying stops at the first success), and
    fewer than [retries] attempts only when it ends in a success.  The
    result is true exactly when every chat's run contains a success; an
    exhausted chat does not cut the later chats' runs, and when the retry
    bound is at least 1 every chat gets at least one attempt. *)
Theorem send_telegram_message_outcome (O : oracle) (chats : list pystr)
    (m : message) (retries : Z) (c : counters)
    (b : bool) (c' : counters) (evs : list event) :
  send_telegram_message O chats m retries c = (Ok b, c', evs) →
  ∃ segs : list (list post_reply),
    length segs = length chats
    ∧ post_events evs = attempts_of chats m segs
    ∧ concat segs = posts O <$> seq (n_post c) (length (concat segs))
    ∧ Forall (attempt_run retries) segs
    ∧ (b = true ↔ Forall (λ seg, Exists (λ r, is_200 r = true) seg) segs)
    ∧ ((0 < retries)%Z → Forall (λ seg, seg ≠ []) segs).
Proof.
  unfold send_telegram_message.
  intros (? & c1 & ev1 & ev2 & Hmark & Hrun & ->)%bind_Ok.
  unfold emit in Hmark. simplify_eq.
  apply send_to_chats_Ok in Hrun
    as (segs & Hlen & Hev & Hsegs & _ & Hruns & Hb & Hne).
  exists segs. split_and!; try done.
  rewrite Hb. tauto.
Qed.

Lemma send_telegram_message_outcome_witness :
  ∃ segs : list (list post_reply),
    length segs = length two_chats
    ∧ post_events (send_telegram_message O_flaky two_chats MsgStopped 3 start).2
      = attempts_of two_chats MsgStopped segs
    ∧ concat segs = posts O_flaky <$> seq 0 (length (concat segs))
    ∧ Forall (attempt_run 3) segs
    ∧ (false = true ↔ Forall (λ seg, Exists (λ r, is_200 r = true) seg) segs)
    ∧ ((0 < 3)%Z → Forall (λ seg, seg ≠ []) segs).
Proof.
  apply (send_telegram_message_outcome O_flaky two_chats MsgStopped 3 start
           false (send_telegram_message O_flaky two_chats MsgStopped 3 start).1.2).
  vm_compute. reflexivity.
Defined.

(** C3 as stated fails for a retry bound of 0: the chat gets no delivery
    attempt at all, although the call returns. *)
Lemma send_without_attempts :
  ∃ c' evs,
    send_telegram_message (calm (λ _, listing [KRW_BTC] 7)) [py "1001"]
      MsgStopped 0 start = (Ok false, c', evs)
    ∧ post_events evs = [].
Proof. eexists _, _. split; [vm_compute; reflexivity|reflexivity]. Qed.

(** C5, as amended.  In an iteration whose fetch returned a non-empty set:
    if that set equals the current set nothing is dispatched, and when the
    iteration completes the current set is the fetched set (unchanged when
    they were equal, replaced when they differed in any way, also by a
    net-zero change); the iteration completes unless an asynchronous error
    interrupts it. *)
Theorem unchanged_or_replaced (O : oracle) (chats : list pystr)
    (st : MonitorState) (c : counters) (new : gset (list N)) (latency : Z) :
  fetch (gets O (n_get c)) = inr (new, latency) →
  new ≠ ∅ →
  (new = current_markets_set st → sends (loop_body O chats st c).2 = [])
  ∧ (∀ st' c' evs,
       loop_body O chats st c = (Ok st', c', evs) →
       current_markets_set st' = new)
  ∧ (quiet O → ∃ st' c' evs, loop_body O chats st c = (Ok st', c', evs)).
Proof.
  intros Hfetch Hnew.
  assert (interrupted (gets O (n_get c)) = false) as Hint.
  { unfold interrupted. by rewrite Hfetch. }
  assert (returned (gets O (n_get c)) = (Some new, latency)) as Hret.
  { unfold returned. by rewrite Hfetch. }
  assert (truthy (Some new) = true) as Htruthy.
  { by apply bool_decide_eq_true. }
  split_and!.
  - intros ->. rewrite loop_body_sends, Hret by done.
    unfold expected_sends, new_listings. cbn [fst snd default from_option id].
    rewrite Htruthy, bool_decide_false; [done|]. intros H. apply H.
    apply leibniz_equiv, difference_diag.
  - intros st' c' evs (_ & -> & _)%loop_body_Ok.
    rewrite Hret. unfold next_state. cbn [fst]. by rewrite Htruthy.
  - intros HO.
    destruct (loop_body_returns O chats st c HO Hint) as (c' & evs & Hrun & _).
    by eexists _, _, _.
Qed.

Lemma unchanged_or_replaced_witness :
  let new : gset (list N) := {[KRW_BTC; KRW_ETH; KRW_SOL]} in
  (new = current_markets_set st_btc →
     sends (loop_body O_batch two_chats st_btc start).2 = [])
  ∧ (∀ st' c' evs,
       loop_body O_batch two_chats st_btc start = (Ok st', c', evs) →
       current_markets_set st' = new)
  ∧ (quiet O_batch →
       ∃ st' c' evs, loop_body O_batch two_chats st_btc start = (Ok st', c', evs)).
Proof.
  intros new.
  apply (unchanged_or_replaced O_batch two_chats st_btc start new 7).
  - vm_compute. reflexivity.
  - vm_compute. discriminate.
Defined.

(** C5 as stated fails when the fetched set is empty: it differs from the
    current set, and the iteration completes without adopting it. *)
Lemma empty_fetch_not_adopted :
  ∃ st' c' evs,
    fetch (gets O_empty (n_get start)) = inr (∅, 5%Z)
    ∧ (∅ : gset (list N)) ≠ current_markets_set st_btc
    ∧ loop_body O_empty two_chats st_btc start = (Ok st', c', evs)
    ∧ current_markets_set st' = current_markets_set st_btc.
Proof.
  eexists _, _, _. split_and!.
  - vm_compute. reflexivity.
  - vm_compute. discriminate.
  - vm_compute. reflexivity.
  - reflexivity.
Qed.

(** C6.  In an iteration whose fetch returned a set: if exactly one ticker
    was added, exactly one single-pair message naming it is dispatched; if
    more than one, exactly one batched message is dispatched whose list is
    the added tickers in sorted order; and when nothing was added (the
    fetched set being non-empty) nothing is dispatched, removals only
    producing a log line. *)
Theorem listing_notifications (O : oracle) (chats : list pystr)
    (st : MonitorState) (c : counters) (new : gset (list N)) (latency : Z) :
  fetch (gets O (n_get c)) = inr (new, latency) →
  let added := new_listings (current_markets_set st) new in
  let removed := delisted_pairs (current_markets_set st) new in
  let time := clock O (n_now c) in
  let run := loop_body O chats st c in
  (∀ x, added = {[x]} → sends run.2 = [MsgListing x time latency])
  ∧ (1 < size added →
       ∃ pairs, sends run.2 = [MsgListings pairs time latency]
         ∧ StronglySorted str_le pairs ∧ pairs ≡ₚ elements added)
  ∧ (new ≠ ∅ → added = ∅ →
       sends run.2 = [] ∧ (removed ≠ ∅ → EvLog (LogDelisted removed) ∈ run.2)).
Proof.
  intros Hfetch added removed time run.
  assert (interrupted (gets O (n_get c)) = false) as Hint.
  { unfold interrupted. by rewrite Hfetch. }
  assert (returned (gets O (n_get c)) = (Some new, latency)) as Hret.
  { unfold returned. by rewrite Hfetch. }
  assert (added ≠ ∅ → truthy (Some new) = true) as Htruthy.
  { intros Hne. apply bool_decide_eq_true. intros ->. apply Hne.
    unfold added, new_listings. apply leibniz_equiv, subseteq_empty_difference.
    apply empty_subseteq. }
  pose proof (loop_body_sends O chats st c Hint) as Hsends.
  rewrite Hret in Hsends. unfold expected_sends in Hsends.
  cbn [fst snd default from_option id] in Hsends. fold added time run in Hsends.
  split_and!.
  - intros x Hx. rewrite Hsends, Htruthy.
    2: { rewrite Hx. intros H. apply (not_elem_of_empty (C:=gset (list N)) x).
         rewrite <- H. by apply elem_of_singleton. }
    rewrite bool_decide_true.
    2: { rewrite Hx. intros H. apply (not_elem_of_empty (C:=gset (list N)) x).
         rewrite <- H. by apply elem_of_singleton. }
    unfold listing_message. rewrite Hx, size_singleton, elements_singleton.
    done.
  - intros Hsz. exists (sorted added).
    assert (added ≠ ∅) as Hne.
    { intros H. rewrite H, size_empty in Hsz. lia. }
    rewrite Hsends, (Htruthy Hne), (bool_decide_true _ Hne).
    unfold listing_message. rewrite bool_decide_false by lia.
    split_and!; [done|apply sorted_Sorted|apply sorted_Permutation].
  - intros Hnew Hadded. split.
    + rewrite Hsends, Hadded.
      assert (truthy (Some new) = true) as ->
        by (by apply bool_decide_eq_true).
      rewrite bool_decide_false; [done|]. by intros [].
    + intros Hremoved. by apply delisting_logged with latency.
Qed.

Lemma listing_notifications_witness :
  let new : gset (list N) := {[KRW_BTC; KRW_ETH; KRW_SOL]} in
  let added := new_listings (current_markets_set st_btc) new in
  let removed := delisted_pairs (current_markets_set st_btc) new in
  let time := clock O_batch (n_now start) in
  let run := loop_body O_batch two_chats st_btc start in
  (∀ x, added = {[x]} → sends run.2 = [MsgListing x time 7])
  ∧ (1 < size added →
       ∃ pairs, sends run.2 = [MsgListings pairs time 7]
         ∧ StronglySorted str_le pairs ∧ pairs ≡ₚ elements added)
  ∧ (new ≠ ∅ → added = ∅ →
       sends run.2 = [] ∧ (removed ≠ ∅ → EvLog (LogDelisted removed) ∈ run.2)).
Proof.
  intros new.
  apply (listing_notifications O_batch two_chats st_btc start new 7).
  vm_compute. reflexivity.
Defined.



(** C8, as amended.  A configuration error (a missing or empty token or
    chat-id variable, or an empty chat id) exits with status 1 before the
    session exists and before any request.  When the loop is left by an
    exception and the handler's notification goes through, the process exits
    with status 0 after closing the session: after the stop notification for
    Ctrl+C, and equally after the alert for an unexpected error, which
    carries at most the first 200 characters of the error text. *)
Theorem exit_status_by_cause (env : environ) (O : oracle) (fuel : nat) :
  (∀ n, load_config env = inl n → main env O fuel = (Exit 1, [EvPrint n]))
  ∧ (opt_truthy (UPBIT_TELEGRAM_TOKEN env) = false
     ∨ opt_truthy (UPBIT_TELEGRAM_CHAT_ID env) = false →
     load_config env = inl NoticeMissingEnv)
  ∧ (∀ ids st0 c1 ev0 e c2 ev1 b c3 ev2,
       load_config env = inr ids →
       startup O ids start = (Ok (Some st0), c1, ev0) →
       iterate O ids fuel st0 c1 = (Raised e, c2, ev1) →
       send_telegram_message O ids (exit_alert e) 3 c2 = (Ok b, c3, ev2) →
       main env O fuel
       = (Exit 0,
          EvPrint (NoticeRecipients (length ids)) :: EvOpen
            :: ev0 ++ ev1 ++ EvLog (exit_log e) :: ev2 ++ [EvClose])
       ∧ sends ev2 = [exit_alert e]
       ∧ match e with
         | KeyboardInterrupt => exit_alert e = MsgStopped
         | _ => ∃ text, exit_alert e = MsgCritical text
                  ∧ text = take 200 (str_of_exn e) ∧ length text ≤ 200
         end).
Proof.
  split_and!.
  - intros n Hcfg. unfold main. by rewrite Hcfg.
  - unfold load_config. intros [-> | ->]; [done|]. by rewrite orb_true_r.
  - intros ids st0 c1 ev0 e c2 ev1 b c3 ev2 Hcfg Hstart Hrun Hsend.
    split_and!.
    + unfold main, monitor_upbit_listings. rewrite Hcfg.
      rewrite (bind_run_Ok _ _ _ _ _ _ Hstart).
      by rewrite (guarded_loop_exit O ids fuel st0 c1 e c2 ev1 b c3 ev2).
    + pose proof (send_telegram_message_events O ids (exit_alert e) 3 c2)
        as (Hs & _). by rewrite Hsend in Hs.
    + destruct e; try done; eexists; (split_and!; [done..|]);
        rewrite length_take; lia.
Qed.

Lemma exit_status_by_cause_witness :
  ∃ evs, main env_ok O_stopped 5 = (Exit 0, evs)
    ∧ sends evs = [MsgStarted 2; MsgStopped] ∧ closes evs = 1.
Proof.
  destruct (proj2 (proj2 (exit_status_by_cause env_ok O_stopped 5))
              two_chats st_btc_eth
              (startup O_stopped two_chats start).1.2
              (startup O_stopped two_chats start).2
              KeyboardInterrupt
              (iterate O_stopped two_chats 5 st_btc_eth
                 (startup O_stopped two_chats start).1.2).1.2
              (iterate O_stopped two_chats 5 st_btc_eth
                 (startup O_stopped two_chats start).1.2).2
              true
              (send_telegram_message O_stopped two_chats MsgStopped 3
                 (iterate O_stopped two_chats 5 st_btc_eth
                    (startup O_stopped two_chats start).1.2).1.2).1.2
              (send_telegram_message O_stopped two_chats MsgStopped 3
                 (iterate O_stopped two_chats 5 st_btc_eth
                    (startup O_stopped two_chats start).1.2).1.2).2)
    as (Hmain & _).
  - vm_compute. reflexivity.
  - vm_compute. reflexivity.
  - vm_compute. reflexivity.
  - vm_compute. reflexivity.
  - eexists. split; [exact Hmain|]. split; vm_compute; reflexivity.
Defined.

(** C8 as stated fails for the crash path: an unexpected error escaping the
    loop body is caught, alerted and followed by a normal return, so the
    exit status is 0. *)
Lemma crash_exits_zero :
  iterate O_crash two_chats 5 st_btc_eth (startup O_crash two_chats start).1.2
  = (Raised (OtherError (py "boom")),
     (iterate O_crash two_chats 5 st_btc_eth (startup O_crash two_chats start).1.2).1.2,
     [EvGet; EvSleep CHECK_INTERVAL_SECONDS])
  ∧ (main env_ok O_crash 5).1 = Exit 0
  ∧ sends (main env_ok O_crash 5).2 = [MsgStarted 2; MsgCritical (py "boom")]
  ∧ closes (main env_ok O_crash 5).2 = 1.
Proof. split_and!; vm_compute; reflexivity. Qed.

(** C9: the code does not do this.  When all three bootstrapping fetches
    fail the function returns before its [try ... finally], and the process
    ends with the session never closed. *)
Theorem bootstrap_failure_leaves_session_open :
  (main env_ok O_down 5).1 = Exit 0
  ∧ sends (main env_ok O_down 5).2 = [MsgBootFailed]
  ∧ requests (main env_ok O_down 5).2 = 3
  ∧ closes (main env_ok O_down 5).2 = 0.
Proof. split_and!; vm_compute; reflexivity. Qed.

(** C10.  A 200 answer whose records carry no market field parses to the
    empty set, and the callers then do exactly what they do for the failure
    marker: the loop body and the bootstrapping step are the same actions
    for both, so an iteration that completes leaves the current set
    unchanged and bumps the failure counter (back to 0 when the threshold
    is reached). *)
Theorem empty_fetch_is_failure (O : oracle) (chats : list pystr)
    (st : MonitorState) (c : counters)
    (r : response) (latency : Z) (data : list (gmap (list N) (list N))) :
  gets O (n_get c) = GetReturns r latency →
  raise_for_status r = None →
  json r = inr data →
  Forall (λ it : gmap (list N) (list N), it !! market_key = None) data →
  get_upbit_markets O c = (Ok (Some ∅, latency), after_get c, [EvGet])
  ∧ loop_step O chats st (Some ∅, latency) = loop_step O chats st (None, 0%Z)
  ∧ (∀ attempt next,
       after_attempt O attempt next (Some ∅, latency)
       = after_attempt O attempt next (None, 0%Z))
  ∧ (∀ st' c' evs,
       loop_body O chats st c = (Ok st', c', evs) →
       current_markets_set st' = current_markets_set st
       ∧ consecutive_errors st' = next_errors (consecutive_errors st)).
Proof.
  intros Hreply Hstatus Hjson Hdata.
  pose proof (tickers_of_no_market data Hdata) as Hempty.
  assert (fetch (gets O (n_get c)) = inr (∅, latency)) as Hfetch.
  { rewrite Hreply. unfold fetch. by rewrite Hstatus, Hjson, Hempty. }
  assert (truthy (Some (∅ : gset (list N))) = false) as Hfalsy.
  { apply bool_decide_eq_false. by intros []. }
  split_and!.
  - by rewrite get_upbit_markets_run, Hfetch.
  - unfold loop_step. by rewrite Hfalsy.
  - intros attempt next. unfold after_attempt. by rewrite Hfalsy.
  - intros st' c' evs (_ & -> & _)%loop_body_Ok.
    unfold returned, next_state. rewrite Hfetch. cbn [fst]. by rewrite Hfalsy.
Qed.

Lemma empty_fetch_is_failure_witness :
  get_upbit_markets O_unlabelled start
  = (Ok (Some ∅, 5%Z), after_get start, [EvGet])
  ∧ loop_step O_unlabelled two_chats st_btc (Some ∅, 5%Z)
    = loop_step O_unlabelled two_chats st_btc (None, 0%Z)
  ∧ (∀ attempt next,
       after_attempt O_unlabelled attempt next (Some ∅, 5%Z)
       = after_attempt O_unlabelled attempt next (None, 0%Z))
  ∧ (∀ st' c' evs,
       loop_body O_unlabelled two_chats st_btc start = (Ok st', c', evs) →
       current_markets_set st' = current_markets_set st_btc
       ∧ consecutive_errors st' = next_errors (consecutive_errors st_btc)).
Proof.
  apply (empty_fetch_is_failure O_unlabelled two_chats st_btc start
           unlabelled 5
           [ {[ py "symbol" := KRW_BTC ]}; {[ py "symbol" := KRW_ETH ]} ]).
  - reflexivity.
  - reflexivity.
  - reflexivity.
  - repeat constructor; vm_compute; reflexivity.
Defined.

(** ** Further properties: configuration *)

Lemma split_nonempty sep s : split sep s ≠ [].
Proof.
  destruct s as [|c s]; simpl; [done|].
  destruct (c =? sep)%N; [done|]. by destruct (split sep s).
Qed.

Lemma split_length sep s : length (split sep s) = S (occurrences sep s).
Proof.
  unfold occurrences. induction s as [|c s IH]; simpl; [done|].
  rewrite filter_cons. destruct (N.eqb_spec c sep) as [->|Hne].
  - rewrite decide_True by done. simpl. by rewrite IH.
  - rewrite decide_False by done.
    pose proof (split_nonempty sep s).
    by destruct (split sep s).
Qed.

Lemma split_no_sep sep s : Forall (λ piece, sep ∉ piece) (split sep s).
Proof.
  induction s as [|c s IH]; simpl.
  - constructor; [apply not_elem_of_nil|constructor].
  - destruct (N.eqb_spec c sep) as [->|Hne].
    + constructor; [apply not_elem_of_nil|done].
    + destruct (split sep s) as [|piece rest].
      * constructor; [|constructor].
        intros [?|?%elem_of_nil]%elem_of_cons; [congruence|done].
      * apply Forall_cons in IH as [Hpiece Hrest]. constructor; [|done].
        intros [?|?]%elem_of_cons; [congruence|done].
Qed.

Lemma join_split sep s : join sep (split sep s) = s.
Proof.
  induction s as [|c s IH]; simpl; [done|].
  pose proof (split_nonempty sep s) as Hne.
  destruct (N.eqb_spec c sep) as [->|Hc].
  - destruct (split sep s) as [|piece rest]; [done|].
    simpl in *. by rewrite IH.
  - destruct (split sep s) as [|piece rest]; [done|].
    destruct rest; simpl in *; by rewrite <- IH.
Qed.

Lemma lstrip_head s c : head (lstrip s) = Some c → isspace c = false.
Proof.
  induction s as [|x s IH]; simpl; [done|].
  destruct (isspace x) eqn:Hx; [done|]. simpl. by intros [= <-].
Qed.

Lemma lstrip_suffix s : lstrip s `suffix_of` s.
Proof.
  induction s as [|x s IH]; simpl; [done|].
  destruct (isspace x); [|done]. by apply suffix_cons_r.
Qed.

Lemma lstrip_last s c : last (lstrip s) = Some c → last s = Some c.
Proof.
  destruct (lstrip_suffix s) as [k Hk]. intros Hlast.
  rewrite Hk. destruct (lstrip s) as [|x l] eqn:Hl; [done|].
  by rewrite last_app, Hlast.
Qed.

Lemma lstrip_blank s : lstrip s = [] ↔ blank s = true.
Proof.
  unfold blank. induction s as [|x s IH]; simpl; [done|].
  destruct (isspace x); simpl; [done|]. split; done.
Qed.

Lemma strip_head s c : head (strip s) = Some c → isspace c = false.
Proof.
  unfold strip. rewrite head_reverse. intros Hlast.
  apply lstrip_last in Hlast. rewrite last_reverse in Hlast.
  by apply lstrip_head in Hlast.
Qed.

Lemma strip_last s c : last (strip s) = Some c → isspace c = false.
Proof. unfold strip. rewrite last_reverse. apply lstrip_head. Qed.

Lemma strip_elem_of s c : c ∈ strip s → c ∈ s.
Proof.
  unfold strip. rewrite elem_of_reverse. intros Hin.
  destruct (lstrip_suffix (reverse (lstrip s))) as [k Hk].
  assert (c ∈ reverse (lstrip s)) as Hin'.
  { rewrite Hk. apply elem_of_app. by right. }
  rewrite elem_of_reverse in Hin'.
  destruct (lstrip_suffix s) as [k' Hk']. rewrite Hk'.
  apply elem_of_app. by right.
Qed.

Lemma blank_reverse s : blank (reverse s) = blank s.
Proof.
  unfold blank. apply eq_true_iff_eq.
  rewrite <- !Is_true_true, !forallb_True, !Forall_forall.
  by setoid_rewrite elem_of_reverse.
Qed.

Lemma strip_blank s : strip s = [] ↔ blank s = true.
Proof.
  unfold strip. split.
  - intros H. apply (f_equal reverse) in H.
    rewrite reverse_involutive in H. simpl in H.
    apply lstrip_blank in H. rewrite blank_reverse in H.
    destruct (lstrip_suffix s) as [k Hk].
    destruct (lstrip s) as [|x l] eqn:Hl.
    + by apply lstrip_blank.
    + pose proof (lstrip_head s x) as Hx. rewrite Hl in Hx.
      specialize (Hx eq_refl). simpl in H. by rewrite Hx in H.
  - intros H. apply lstrip_blank in H. by rewrite H.
Qed.

(** X1.  A configuration that loads has a usable token and at least one
    chat id: one id per comma-separated piece of the variable (commas + 1 of
    them), each the piece without its surrounding whitespace, none empty,
    none containing a comma or starting or ending with whitespace. *)
Theorem load_config_recipients (env : environ) (ids : list pystr) :
  load_config env = inr ids →
  ∃ s, UPBIT_TELEGRAM_CHAT_ID env = Some s
    ∧ opt_truthy (UPBIT_TELEGRAM_TOKEN env) = true
    ∧ ids = strip <$> split 44 s
    ∧ length ids = S (occurrences 44 s)
    ∧ Forall (λ id, id ≠ [] ∧ (44%N ∉ id)
                ∧ (∀ c, head id = Some c → isspace c = false)
                ∧ (∀ c, last id = Some c → isspace c = false)) ids.
Proof.
  unfold load_config.
  destruct (opt_truthy (UPBIT_TELEGRAM_TOKEN env)) eqn:Htok; [|done].
  destruct (UPBIT_TELEGRAM_CHAT_ID env) as [s|] eqn:Hchat; [|done].
  destruct (opt_truthy (Some s)) eqn:Hs; [|done]. cbn [negb orb default from_option id].
  destruct (forallb str_truthy (strip <$> split 44 s)) eqn:Hall; [|done].
  intros [= <-]. exists s. split_and!; try done.
  - by rewrite length_fmap, split_length.
  - apply Forall_fmap, Forall_forall. intros piece Hin. simpl.
    apply Is_true_true, forallb_True in Hall. rewrite Forall_fmap, Forall_forall in Hall.
    specialize (Hall piece Hin). simpl in Hall.
    pose proof (split_no_sep 44 s) as Hsep. rewrite Forall_forall in Hsep.
    split_and!.
    + intros Heq. by rewrite Heq in Hall.
    + intros Hc%strip_elem_of. by apply (Hsep piece Hin).
    + apply strip_head.
    + apply strip_last.
Qed.

Lemma load_config_recipients_witness :
  ∃ s, UPBIT_TELEGRAM_CHAT_ID env_ok = Some s
    ∧ opt_truthy (UPBIT_TELEGRAM_TOKEN env_ok) = true
    ∧ two_chats = strip <$> split 44 s
    ∧ length two_chats = S (occurrences 44 s)
    ∧ Forall (λ id, id ≠ [] ∧ (44%N ∉ id)
                ∧ (∀ c, head id = Some c → isspace c = false)
                ∧ (∀ c, last id = Some c → isspace c = false)) two_chats.
Proof.
  apply (load_config_recipients env_ok two_chats). vm_compute. reflexivity.
Defined.

(** X2.  With both variables set, one empty or whitespace-only piece in the
    chat-id list (a doubled, leading or trailing comma) is fatal: the script
    prints the parsing notice and exits with status 1, without creating the
    session or making a request. *)
Theorem blank_chat_id_rejected (env : environ) (O : oracle) (fuel : nat)
    (s : pystr) :
  opt_truthy (UPBIT_TELEGRAM_TOKEN env) = true →
  UPBIT_TELEGRAM_CHAT_ID env = Some s →
  s ≠ [] →
  Exists (λ piece, blank piece = true) (split 44 s) →
  main env O fuel = (Exit 1, [EvPrint NoticeBadChatIds]).
Proof.
  intros Htok Hchat Hs Hblank. unfold main, load_config.
  rewrite Htok, Hchat. destruct s as [|c s]; [done|].
  cbn [opt_truthy str_truthy negb orb default from_option id].
  assert (forallb str_truthy (strip <$> split 44 (c :: s)) = false) as ->; [|done].
  apply not_true_is_false. intros Hall.
  apply Is_true_true, forallb_True in Hall.
  rewrite Forall_fmap, Forall_forall in Hall.
  apply Exists_exists in Hblank as (piece & Hin & Hpiece).
  specialize (Hall piece Hin). simpl in Hall.
  apply strip_blank in Hpiece. by rewrite Hpiece in Hall.
Qed.

Lemma blank_chat_id_rejected_witness :
  main {| UPBIT_TELEGRAM_TOKEN := Some (py "12345:token");
          UPBIT_TELEGRAM_CHAT_ID := Some (py "1001, 1002, ") |} O_down 5
  = (Exit 1, [EvPrint NoticeBadChatIds]).
Proof.
  apply (blank_chat_id_rejected _ O_down 5 (py "1001, 1002, ")).
  - reflexivity.
  - reflexivity.
  - vm_compute. discriminate.
  - vm_compute. do 2 apply Exists_cons_tl. apply Exists_cons_hd. reflexivity.
Defined.

(** X3.  Splitting at commas loses nothing: joining the pieces with commas
    gives the string back, and no piece contains a comma. *)
Theorem split_join_roundtrip (sep : N) (s : pystr) :
  join sep (split sep s) = s
  ∧ Forall (λ piece, sep ∉ piece) (split sep s)
  ∧ length (split sep s) = S (occurrences sep s).
Proof.
  split_and!; [apply join_split|apply split_no_sep|apply split_length].
Qed.

(** ** Further properties: the fetcher *)

(** X4.  The ticker set of a payload holds exactly the market values of the
    records that have the field: records without it are skipped, and
    neither the order of the records nor repeated records matter. *)
Theorem tickers_of_spec (data : list (gmap (list N) (list N))) :
  (∀ t, t ∈ tickers_of data ↔ ∃ it, it ∈ data ∧ it !! market_key = Some t)
  ∧ (∀ data' : list (gmap (list N) (list N)),
       (∀ it, it ∈ data ↔ it ∈ data') → tickers_of data = tickers_of data').
Proof.
  assert (∀ (d : list (gmap (list N) (list N))) t,
    t ∈ tickers_of d ↔ ∃ it, it ∈ d ∧ it !! market_key = Some t) as Hspec.
  { intros d t. unfold tickers_of.
    by rewrite elem_of_list_to_set, list_elem_of_omap. }
  split; [apply Hspec|].
  intros data' Hsame. apply set_eq. intros t. rewrite !Hspec.
  by setoid_rewrite Hsame.
Qed.

Lemma tickers_of_spec_witness :
  tickers_of [ {[ market_key := KRW_BTC ]}; {[ py "symbol" := KRW_ETH ]};
               {[ market_key := KRW_XRP ]} ]
  = tickers_of [ {[ market_key := KRW_XRP ]}; {[ market_key := KRW_BTC ]};
                 {[ py "symbol" := KRW_ETH ]}; {[ market_key := KRW_XRP ]} ].
Proof.
  apply (proj2 (tickers_of_spec
    [ {[ market_key := KRW_BTC ]}; {[ py "symbol" := KRW_ETH ]};
      {[ market_key := KRW_XRP ]} ])).
  intros it. rewrite !elem_of_cons, !elem_of_nil. tauto.
Defined.

(** X5.  [get_upbit_markets] makes exactly one request and lets no
    [Exception] out: it returns the parsed set with the measured latency and
    logs nothing, or returns [(None, 0)] after one log line of level WARNING
    or ERROR, or propagates [KeyboardInterrupt]; an answer with a 4xx or 5xx
    status is a failure whatever its body. *)
Theorem get_upbit_markets_contained (O : oracle) (c : counters) :
  requests (get_upbit_markets O c).2 = 1
  ∧ n_get (get_upbit_markets O c).1.2 = S (n_get c)
  ∧ match (get_upbit_markets O c).1.1 with
    | Ok (Some s, latency) =>
        fetch (gets O (n_get c)) = inr (s, latency)
        ∧ (get_upbit_markets O c).2 = [EvGet]
    | Ok (None, latency) =>
        latency = 0%Z
        ∧ ∃ e, fetch (gets O (n_get c)) = inl e ∧ is_Exception e = true
            ∧ (get_upbit_markets O c).2 = [EvGet; EvLog (fetch_log e)]
            ∧ (level_of (fetch_log e) = WARNING ∨ level_of (fetch_log e) = ERROR)
    | Raised e => e = KeyboardInterrupt
    | OutOfFuel => False
    end
  ∧ (∀ r latency,
       gets O (n_get c) = GetReturns r latency →
       (400 <= status_code r < 600)%Z →
       (get_upbit_markets O c).1.1 = Ok (None, 0%Z)).
Proof.
  rewrite get_upbit_markets_run. split_and!.
  - destruct (fetch (gets O (n_get c))) as [e|[s latency]]; [|done].
    by destruct (is_Exception e).
  - destruct (fetch (gets O (n_get c))) as [e|[s latency]]; [|done].
    by destruct (is_Exception e).
  - destruct (fetch (gets O (n_get c))) as [e|[s latency]]; [|done].
    destruct e; simpl; try done; (split; [done|]); eexists;
      (split_and!; [done..|]); auto.
  - intros r latency Hreply [Hlo Hhi]. rewrite Hreply. unfold fetch, raise_for_status.
    assert ((400 <=? status_code r)%Z && (status_code r <? 600)%Z = true) as ->.
    { apply andb_true_iff. split; [by apply Z.leb_le|by apply Z.ltb_lt]. }
    done.
Qed.

Lemma get_upbit_markets_contained_witness :
  (get_upbit_markets
     (calm (λ _, GetReturns {| status_code := 503;
                               json := inr [ {[ market_key := KRW_BTC ]} ] |} 9))
     start).1.1 = Ok (None, 0%Z).
Proof.
  apply (proj2 (proj2 (proj2 (get_upbit_markets_contained
    (calm (λ _, GetReturns {| status_code := 503;
                              json := inr [ {[ market_key := KRW_BTC ]} ] |} 9))
    start)))
    {| status_code := 503; json := inr [ {[ market_key := KRW_BTC ]} ] |} 9%Z).
  - reflexivity.
  - simpl. lia.
Defined.

(** ** Further properties: the diff *)

(** X6.  The diff of an iteration accounts for the whole change: taking the
    removed tickers out of the previous set and adding the new ones gives
    the fetched set, and both differences are empty exactly when the two
    sets are equal, so the inequality test that guards the diff misses no
    change, also not one that adds and removes equally many tickers. *)
Theorem diff_rebuilds_fetched (A B : gset (list N)) :
  (A ∖ delisted_pairs A B) ∪ new_listings A B = B
  ∧ (new_listings A B = ∅ ∧ delisted_pairs A B = ∅ ↔ B = A).
Proof.
  unfold new_listings, delisted_pairs. split.
  - apply set_eq. intros x. rewrite elem_of_union, !elem_of_difference.
    destruct (decide (x ∈ A)), (decide (x ∈ B)); tauto.
  - split.
    + intros [Hadd Hrem]. apply set_eq. intros x.
      assert (x ∉ B ∖ A) as H1 by (rewrite Hadd; apply not_elem_of_empty).
      assert (x ∉ A ∖ B) as H2 by (rewrite Hrem; apply not_elem_of_empty).
      rewrite elem_of_difference in H1, H2.
      destruct (decide (x ∈ A)), (decide (x ∈ B)); tauto.
    + intros ->. split; apply leibniz_equiv, difference_diag.
Qed.

Lemma diff_rebuilds_fetched_witness :
  (({[KRW_BTC; KRW_ETH]} : gset (list N))
     ∖ delisted_pairs {[KRW_BTC; KRW_ETH]} {[KRW_BTC; KRW_XRP]})
  ∪ new_listings {[KRW_BTC; KRW_ETH]} {[KRW_BTC; KRW_XRP]}
  = {[KRW_BTC; KRW_XRP]}.
Proof.
  exact (proj1 (diff_rebuilds_fetched {[KRW_BTC; KRW_ETH]} {[KRW_BTC; KRW_XRP]})).
Defined.

(** X7.  The list of a batched message is determined by the set of added
    tickers alone: it holds each of them once, in strictly increasing
    code-point order, and every sorted arrangement of the set's elements is
    this list. *)
Theorem sorted_canonical (s : gset (list N)) :
  (∀ x, x ∈ sorted s ↔ x ∈ s)
  ∧ NoDup (sorted s)
  ∧ length (sorted s) = size s
  ∧ StronglySorted (λ a b, str_le a b ∧ a ≠ b) (sorted s)
  ∧ (∀ l, Sorted str_le l → l ≡ₚ elements s → l = sorted s).
Proof.
  pose proof (sorted_Permutation s) as Hperm.
  pose proof (sorted_Sorted s) as Hsorted.
  assert (NoDup (sorted s)) as Hnodup.
  { rewrite Hperm. apply NoDup_elements. }
  split_and!.
  - intros x. by rewrite Hperm, elem_of_elements.
  - done.
  - by rewrite Hperm.
  - clear Hperm. induction Hsorted as [|a l _ IH Hall]; [constructor|].
    apply NoDup_cons in Hnodup as [Ha Hnd]. constructor; [by apply IH|].
    rewrite Forall_forall in Hall |- *. intros b Hb. split; [auto|].
    by intros ->.
  - intros l Hl Hlperm. apply (Sorted_unique str_le); [done| |].
    + apply StronglySorted_Sorted, Hsorted.
    + by rewrite Hlperm, Hperm.
Qed.

Lemma sorted_canonical_witness :
  [KRW_BTC; KRW_ETH; KRW_SOL] = sorted {[KRW_SOL; KRW_BTC; KRW_ETH]}.
Proof.
  apply (proj2 (proj2 (proj2 (proj2
    (sorted_canonical {[KRW_SOL; KRW_BTC; KRW_ETH]}))))).
  - repeat constructor; vm_compute; reflexivity.
  - apply (bool_decide_unpack _). vm_compute. exact I.
Defined.

(** ** Further properties: the dispatcher *)

Section DispatcherRuns.

Context (O : oracle).

Lemma sleep_events_app evs1 evs2 :
  sleep_events (evs1 ++ evs2) = sleep_events evs1 ++ sleep_events evs2.
Proof. apply omap_app. Qed.

Lemma undelivered_app evs1 evs2 :
  undelivered (evs1 ++ evs2) = undelivered evs1 ++ undelivered evs2.
Proof. apply omap_app. Qed.

(** What the attempts for one chat can amount to, however they end. *)
Lemma post_attempts_bounds chat m retries left : ∀ attempt c,
  attempt + left = Z.to_nat retries →
  length (post_events (post_attempts O chat m retries attempt left c).2) ≤ left
  ∧ length (sleep_events (post_attempts O chat m retries attempt left c).2)
    ≤ left - 1
  ∧ Forall (λ d, d = 1%Q)
      (sleep_events (post_attempts O chat m retries attempt left c).2)
  ∧ undelivered (post_attempts O chat m retries attempt left c).2 = [].
Proof.
  induction left as [|left IH]; intros attempt c Hsum; cbn [post_attempts].
  { simpl. split_and!; try done; lia. }
  assert (∀ l c0,
    match l with LogPostStatus _ _ _ _ _ | LogPostRaised _ _ _ _ => True
               | _ => False end →
    let run := (log l;;
                (if (Z.of_nat attempt <? retries - 1)%Z
                 then sleep O 1 else ret tt);;
                post_attempts O chat m retries (S attempt) left) c0 in
    length (post_events run.2) ≤ left
    ∧ length (sleep_events run.2) ≤ left
    ∧ (left = 0 → sleep_events run.2 = [])
    ∧ Forall (λ d, d = 1%Q) (sleep_events run.2)
    ∧ undelivered run.2 = []) as Hretry.
  { intros l c0 Hl run. subst run. unfold bind at 1, log, emit.
    destruct (Z.of_nat attempt <? retries - 1)%Z eqn:Hcond.
    - apply Z.ltb_lt in Hcond. unfold bind, sleep.
      destruct (sleeps O (n_sleep c0)).
      + destruct l; try done; cbn; split_and!; try done; try lia;
          repeat constructor.
      + match goal with |- context [post_attempts O chat m retries ?a left ?c1] =>
          destruct (IH a c1 ltac:(lia)) as (H1 & H2 & H3 & H4);
          destruct (post_attempts O chat m retries a left c1) as [[r c2] ev2]
        end.
        destruct l; try done; cbn in *; split_and!; try done; try lia;
          by constructor.
    - apply Z.ltb_ge in Hcond. unfold bind, ret.
      match goal with |- context [post_attempts O chat m retries ?a left ?c1] =>
        destruct (IH a c1 ltac:(lia)) as (H1 & H2 & H3 & H4);
        destruct (post_attempts O chat m retries a left c1) as [[r c2] ev2]
      end.
      destruct l; try done; cbn in *; split_and!; try done; try lia;
        intros ->; apply nil_length_inv; simpl in H2; lia. }
  erewrite bind_run_Ok by reflexivity.
  destruct (posts O (n_post c)) as [e|status body].
  - destruct (is_Exception e);
      [|cbn; split_and!; try done; try lia; repeat constructor].
    match goal with |- context [bind (log ?l) ?k ?c0] =>
      destruct (Hretry l c0 I) as (H1 & H2 & H3 & H4 & H5);
      destruct (bind (log l) k c0) as [[r c2] ev2]
    end.
    cbn in *. split_and!; try done; lia.
  - destruct (status =? 200)%Z;
      [cbn; split_and!; try done; try lia; repeat constructor|].
    match goal with |- context [bind (log ?l) ?k ?c0] =>
      destruct (Hretry l c0 I) as (H1 & H2 & H3 & H4 & H5);
      destruct (bind (log l) k c0) as [[r c2] ev2]
    end.
    cbn in *. split_and!; try done; lia.
Qed.

Lemma send_to_chats_bounds m retries chats : ∀ all c,
  length (post_events (send_to_chats O chats m retries all c).2)
    ≤ length chats * Z.to_nat retries
  ∧ length (sleep_events (send_to_chats O chats m retries all c).2)
    ≤ length chats * (Z.to_nat retries - 1)
  ∧ Forall (λ d, d = 1%Q)
      (sleep_events (send_to_chats O chats m retries all c).2)
  ∧ undelivered (send_to_chats O chats m retries all c).2 `sublist_of` chats.
Proof.
  induction chats as [|chat rest IH]; intros all c; cbn [send_to_chats].
  { simpl. split_and!; try done; repeat constructor. }
  unfold send_to_chat, bind.
  destruct (post_attempts_bounds chat m retries (Z.to_nat retries) 0 c eq_refl)
    as (H1 & H2 & H3 & H4).
  destruct (post_attempts O chat m retries 0 (Z.to_nat retries) c)
    as [[[sent| |] c1] ev1]; cbn [fst snd] in *.
  - destruct sent; cbn.
    + destruct (IH all c1) as (G1 & G2 & G3 & G4).
      destruct (send_to_chats O rest m retries all c1) as [[r c2] ev2].
      cbn [fst snd] in *. rewrite app_nil_r.
      rewrite post_events_app, sleep_events_app, undelivered_app, !length_app, H4.
      split_and!; try lia.
      * by apply Forall_app.
      * by apply sublist_cons.
    + destruct (IH false c1) as (G1 & G2 & G3 & G4).
      destruct (send_to_chats O rest m retries false c1) as [[r c2] ev2].
      cbn [fst snd] in *.
      rewrite !post_events_app, !sleep_events_app, !undelivered_app, !length_app, H4.
      cbn. rewrite !app_nil_r. split_and!; try lia.
      * by apply Forall_app.
      * by apply sublist_skip.
  - rewrite H4. cbn [length]. split_and!; try done; try nia. apply sublist_nil_l.
  - rewrite H4. cbn [length]. split_and!; try done; try nia. apply sublist_nil_l.
Qed.

Lemma is_200_inv r :
  is_200 r = true → ∃ status body, r = PostReturns status body ∧ (status =? 200)%Z = true.
Proof. destruct r as [e|status body]; simpl; [done|]. by eexists _, _. Qed.

Lemma send_to_chats_all_ok m retries chats : ∀ all c,
  (0 < retries)%Z →
  (∀ i, i < length chats → is_200 (posts O (n_post c + i)) = true) →
  send_to_chats O chats m retries all c
  = (Ok all,
     {| n_get := n_get c; n_post := n_post c + length chats;
        n_sleep := n_sleep c; n_now := n_now c |},
     zip_with (λ chat r, EvPost chat m r) chats
       (posts O <$> seq (n_post c) (length chats))).
Proof.
  intros all c Hpos. revert all c.
  induction chats as [|chat rest IH]; intros all c Hok; cbn [send_to_chats].
  { unfold ret. simpl. rewrite Nat.add_0_r. by destruct c. }
  pose proof (Hok 0 ltac:(simpl; lia)) as H0. rewrite Nat.add_0_r in H0.
  apply is_200_inv in H0 as (status & body & Hr & Hs).
  destruct (Z.to_nat retries) as [|left] eqn:Hleft; [lia|].
  unfold send_to_chat. rewrite Hleft. cbn [post_attempts].
  unfold bind at 1 2 3, session_post. rewrite Hr, Hs. unfold ret at 1 2.
  rewrite IH.
  2: { intros i Hi. cbn [n_post]. replace (S (n_post c) + i) with (n_post c + S i) by lia.
       apply Hok. simpl. lia. }
  cbn. rewrite Hr. do 2 f_equal. f_equal. lia.
Qed.

Lemma last_cons_Some {A} (x : A) l y : last l = Some y → last (x :: l) = Some y.
Proof. destruct l; [done|]. done. Qed.

Lemma last_app_Some {A} (l1 l2 : list A) y :
  last l2 = Some y → last (l1 ++ l2) = Some y.
Proof. intros H. by rewrite last_app, H. Qed.

(** With [time.sleep] undisturbed, all that ends the attempts early is
    Ctrl+C during a post. *)
Lemma post_attempts_escape chat m retries left : ∀ attempt c,
  (∀ k, sleeps O k = None) →
  match (post_attempts O chat m retries attempt left c).1.1 with
  | Ok _ => True
  | Raised e =>
      e = KeyboardInterrupt
      ∧ last (post_attempts O chat m retries attempt left c).2
        = Some (EvPost chat m (PostRaises KeyboardInterrupt))
  | OutOfFuel => False
  end.
Proof.
  intros attempt c Hsleep. revert attempt c.
  induction left as [|left IH]; intros attempt c; cbn [post_attempts]; [done|].
  assert (∀ l c0,
    match ((log l;;
            (if (Z.of_nat attempt <? retries - 1)%Z
             then sleep O 1 else ret tt);;
            post_attempts O chat m retries (S attempt) left) c0).1.1 with
    | Ok _ => True
    | Raised e =>
        e = KeyboardInterrupt
        ∧ last ((log l;;
                 (if (Z.of_nat attempt <? retries - 1)%Z
                  then sleep O 1 else ret tt);;
                 post_attempts O chat m retries (S attempt) left) c0).2
          = Some (EvPost chat m (PostRaises KeyboardInterrupt))
    | OutOfFuel => False
    end) as Hretry.
  { intros l c0. erewrite bind_run_Ok by reflexivity.
    destruct (Z.of_nat attempt <? retries - 1)%Z.
    - erewrite bind_run_Ok by (unfold sleep; rewrite Hsleep; reflexivity).
      match goal with |- context [post_attempts O chat m retries ?a left ?c1] =>
        specialize (IH a c1);
        destruct (post_attempts O chat m retries a left c1) as [[[b|e|] c2] ev2]
      end; cbn in *; try done.
      destruct IH as [-> Hlast]. split; [done|].
      first [exact Hlast|by apply last_cons_Some|by do 2 apply last_cons_Some].
    - erewrite bind_run_Ok by reflexivity.
      match goal with |- context [post_attempts O chat m retries ?a left ?c1] =>
        specialize (IH a c1);
        destruct (post_attempts O chat m retries a left c1) as [[[b|e|] c2] ev2]
      end; cbn in *; try done.
      destruct IH as [-> Hlast]. split; [done|].
      first [exact Hlast|by apply last_cons_Some|by do 2 apply last_cons_Some]. }
  erewrite bind_run_Ok by reflexivity.
  destruct (posts O (n_post c)) as [e|status body].
  - destruct e; cbn [is_Exception];
      try (match goal with |- context [bind (log ?l) ?k ?c0] =>
             specialize (Hretry l c0);
             destruct (bind (log l) k c0) as [[[b|e'|] c2] ev2]
           end; cbn in *; try done;
           destruct Hretry as [-> Hlast]; split; [done|];
           first [exact Hlast|by apply last_cons_Some|by do 2 apply last_cons_Some]).
    cbn. done.
  - destruct (status =? 200)%Z; [done|].
    match goal with |- context [bind (log ?l) ?k ?c0] =>
      specialize (Hretry l c0);
      destruct (bind (log l) k c0) as [[[b|e'|] c2] ev2]
    end; cbn in *; try done.
    destruct Hretry as [-> Hlast]. split; [done|].
    first [exact Hlast|by apply last_cons_Some|by do 2 apply last_cons_Some].
Qed.

Lemma send_to_chats_escape m retries chats : ∀ all c,
  (∀ k, sleeps O k = None) →
  match (send_to_chats O chats m retries all c).1.1 with
  | Ok _ => True
  | Raised e =>
      e = KeyboardInterrupt
      ∧ ∃ chat, chat ∈ chats
          ∧ last (send_to_chats O chats m retries all c).2
            = Some (EvPost chat m (PostRaises KeyboardInterrupt))
  | OutOfFuel => False
  end.
Proof.
  intros all c Hsleep. revert all c.
  induction chats as [|chat rest IH]; intros all c; cbn [send_to_chats]; [done|].
  unfold send_to_chat, bind.
  pose proof (post_attempts_escape chat m retries (Z.to_nat retries) 0 c Hsleep)
    as Hone.
  destruct (post_attempts O chat m retries 0 (Z.to_nat retries) c)
    as [[[sent|e|] c1] ev1]; cbn [fst snd] in *; [| |done].
  - destruct sent; cbn.
    + specialize (IH all c1).
      destruct (send_to_chats O rest m retries all c1) as [[[b|e|] c2] ev2];
        cbn [fst snd] in *; try done.
      destruct IH as (-> & chat' & Hin & Hlast). split; [done|].
      exists chat'. split; [by apply list_elem_of_further|].
      by apply last_app_Some.
    + specialize (IH false c1).
      destruct (send_to_chats O rest m retries false c1) as [[[b|e|] c2] ev2];
        cbn [fst snd] in *; try done.
      destruct IH as (-> & chat' & Hin & Hlast). split; [done|].
      exists chat'. split; [by apply list_elem_of_further|].
      by apply last_app_Some.
  - destruct Hone as [-> Hlast]. split; [done|].
    exists chat. split; [apply list_elem_of_here|done].
Qed.

End DispatcherRuns.

(** In total: however a call of the dispatcher ends, it posts at most
    [retries] times per chat and pauses at most [retries - 1] times per
    chat, always for one second (never after a chat's last attempt), and it
    logs a chat as undelivered at most once, in the order of the list. *)
Theorem send_telegram_message_bounded (O : oracle) (chats : list pystr)
    (m : message) (retries : Z) (c : counters) :
  length (post_events (send_telegram_message O chats m retries c).2)
    ≤ length chats * Z.to_nat retries
  ∧ length (sleep_events (send_telegram_message O chats m retries c).2)
    ≤ length chats * (Z.to_nat retries - 1)
  ∧ Forall (λ d, d = 1%Q)
      (sleep_events (send_telegram_message O chats m retries c).2)
  ∧ undelivered (send_telegram_message O chats m retries c).2
      `sublist_of` chats.
Proof.
  unfold send_telegram_message, bind, emit.
  pose proof (send_to_chats_bounds O m retries chats true c) as H.
  destruct (send_to_chats O chats m retries true c) as [[r c2] ev2].
  exact H.
Qed.

(** X9.  When Telegram answers 200 to the first attempt for every chat (and
    the retry bound is at least 1), the call returns true after exactly one
    post per chat, in the order of the list, without pausing and without
    logging anything. *)
Theorem send_telegram_message_all_delivered (O : oracle) (chats : list pystr)
    (m : message) (retries : Z) (c : counters) :
  (0 < retries)%Z →
  (∀ i, i < length chats → is_200 (posts O (n_post c + i)) = true) →
  send_telegram_message O chats m retries c
  = (Ok true,
     {| n_get := n_get c; n_post := n_post c + length chats;
        n_sleep := n_sleep c; n_now := n_now c |},
     EvSend m :: zip_with (λ chat r, EvPost chat m r) chats
                   (posts O <$> seq (n_post c) (length chats))).
Proof.
  intros Hpos Hok. unfold send_telegram_message.
  erewrite bind_run_Ok by reflexivity.
  by rewrite send_to_chats_all_ok.
Qed.

Lemma send_telegram_message_all_delivered_witness :
  send_telegram_message O_batch two_chats MsgStopped 3 start
  = (Ok true,
     {| n_get := 0; n_post := 2; n_sleep := 0; n_now := 0 |},
     [EvSend MsgStopped;
      EvPost (py "1001") MsgStopped (PostReturns 200 []);
      EvPost (py "1002") MsgStopped (PostReturns 200 [])]).
Proof.
  apply (send_telegram_message_all_delivered O_batch two_chats MsgStopped 3 start).
  - lia.
  - intros i Hi. reflexivity.
Defined.

(** X10.  With [time.sleep] undisturbed, no error of a delivery attempt
    leaves the dispatcher: the call returns, or it propagates
    [KeyboardInterrupt], and then the interrupted post is the last thing the
    call did (no chat is tried after it). *)
Theorem send_telegram_message_escape (O : oracle) (chats : list pystr)
    (m : message) (retries : Z) (c : counters) :
  (∀ k, sleeps O k = None) →
  match (send_telegram_message O chats m retries c).1.1 with
  | Ok _ => True
  | Raised e =>
      e = KeyboardInterrupt
      ∧ ∃ chat, chat ∈ chats
          ∧ last (send_telegram_message O chats m retries c).2
            = Some (EvPost chat m (PostRaises KeyboardInterrupt))
  | OutOfFuel => False
  end.
Proof.
  intros Hsleep. unfold send_telegram_message, bind, emit.
  pose proof (send_to_chats_escape O m retries chats true c Hsleep) as H.
  destruct (send_to_chats O chats m retries true c) as [[[b|e|] c2] ev2];
    cbn [fst snd] in *; try done.
  destruct H as (-> & chat & Hin & Hlast). split; [done|].
  exists chat. split; [done|]. by apply last_app_Some.
Qed.

Lemma send_telegram_message_escape_witness :
  match (send_telegram_message O_post_interrupted two_chats MsgStopped 3 start).1.1 with
  | Ok _ => True
  | Raised e =>
      e = KeyboardInterrupt
      ∧ ∃ chat, chat ∈ two_chats
          ∧ last (send_telegram_message O_post_interrupted two_chats MsgStopped 3 start).2
            = Some (EvPost chat MsgStopped (PostRaises KeyboardInterrupt))
  | OutOfFuel => False
  end.
Proof.
  apply (send_telegram_message_escape O_post_interrupted two_chats MsgStopped 3 start).
  intros k. reflexivity.
Defined.

Section DispatcherRejected.

Context (O : oracle).
Context (Hsleep : ∀ k, sleeps O k = None).
Context (Hrejected : ∀ k, is_200 (posts O k) = false
                          ∧ posts O k ≠ PostRaises KeyboardInterrupt).

Lemma post_attempts_all_fail chat m retries left : ∀ attempt c,
  attempt + left = Z.to_nat retries →
  ∃ c' evs,
    post_attempts O chat m retries attempt left c = (Ok false, c', evs)
    ∧ length (post_events evs) = left
    ∧ length (sleep_events evs) = left - 1
    ∧ undelivered evs = [].
Proof.
  induction left as [|left IH]; intros attempt c Hsum; cbn [post_attempts].
  { eexists _, _. split; [reflexivity|]. done. }
  assert (∀ l c0,
    match l with LogPostStatus _ _ _ _ _ | LogPostRaised _ _ _ _ => True
               | _ => False end →
    ∃ c' evs,
      (log l;;
       (if (Z.of_nat attempt <? retries - 1)%Z then sleep O 1 else ret tt);;
       post_attempts O chat m retries (S attempt) left) c0 = (Ok false, c', evs)
      ∧ length (post_events evs) = left
      ∧ length (sleep_events evs) = left
      ∧ undelivered evs = []) as Hretry.
  { intros l c0 Hl. erewrite bind_run_Ok by reflexivity.
    destruct (Z.of_nat attempt <? retries - 1)%Z eqn:Hcond.
    - apply Z.ltb_lt in Hcond. assert (1 ≤ left) as Hleft by lia.
      erewrite bind_run_Ok by (unfold sleep; rewrite Hsleep; reflexivity).
      match goal with |- context [post_attempts O chat m retries ?a left ?c1] =>
        destruct (IH a c1 ltac:(lia)) as (c' & evs & -> & H1 & H2 & H3)
      end.
      eexists _, _. split; [reflexivity|].
      destruct l; try done; cbn; unfold sleep_events, post_events, undelivered in *;
        split_and!; try done; lia.
    - apply Z.ltb_ge in Hcond. assert (left = 0) as Hleft by lia.
      erewrite bind_run_Ok by reflexivity.
      match goal with |- context [post_attempts O chat m retries ?a left ?c1] =>
        destruct (IH a c1 ltac:(lia)) as (c' & evs & -> & H1 & H2 & H3)
      end.
      eexists _, _. split; [reflexivity|].
      destruct l; try done; cbn; unfold sleep_events, post_events, undelivered in *;
        split_and!; try done; lia. }
  erewrite bind_run_Ok by reflexivity.
  destruct (Hrejected (n_post c)) as [Hno Hint].
  destruct (posts O (n_post c)) as [e|status body].
  - destruct e; try done; cbn [is_Exception];
      match goal with |- context [bind (log ?l) ?k ?c0] =>
        destruct (Hretry l c0 I) as (c' & evs & -> & H1 & H2 & H3)
      end;
      (eexists _, _; split; [reflexivity|]); cbn; unfold sleep_events, post_events, undelivered in *;
        split_and!; try done; lia.
  - simpl in Hno. rewrite Hno.
    match goal with |- context [bind (log ?l) ?k ?c0] =>
      destruct (Hretry l c0 I) as (c' & evs & -> & H1 & H2 & H3)
    end.
    eexists _, _. split; [reflexivity|]. cbn. unfold sleep_events, post_events, undelivered in *.
    split_and!; try done; lia.
Qed.

Lemma send_to_chats_all_fail m retries chats : ∀ all c,
  ∃ c' evs,
    send_to_chats O chats m retries all c
    = (Ok (if chats is [] then all else false), c', evs)
    ∧ length (post_events evs) = length chats * Z.to_nat retries
    ∧ length (sleep_events evs) = length chats * (Z.to_nat retries - 1)
    ∧ undelivered evs = chats.
Proof.
  induction chats as [|chat rest IH]; intros all c; cbn [send_to_chats].
  { eexists _, _. split; [reflexivity|]. done. }
  destruct (post_attempts_all_fail chat m retries (Z.to_nat retries) 0 c eq_refl)
    as (c1 & ev1 & Hone & H1 & H2 & H3).
  destruct (IH false c1) as (c2 & ev2 & Hrest & G1 & G2 & G3).
  eexists _, _. split.
  - unfold send_to_chat. unfold bind at 1 2. rewrite Hone.
    unfold bind at 1, log, emit, ret at 1. rewrite Hrest.
    cbn. by destruct rest.
  - rewrite !post_events_app, !sleep_events_app, !undelivered_app, !length_app.
    rewrite H1, H2, H3, G1, G2, G3. cbn. split_and!; try done; lia.
Qed.

End DispatcherRejected.

(** In total: when Telegram rejects every attempt (no answer is 200, nothing
    interrupts), the call for a non-empty chat list returns false after
    exactly [retries] posts and [retries - 1] pauses per chat, and logs
    every chat as undelivered, in the order of the list. *)
Theorem send_telegram_message_all_rejected (O : oracle) (chats : list pystr)
    (m : message) (retries : Z) (c : counters) :
  (∀ k, sleeps O k = None) →
  (∀ k, is_200 (posts O k) = false ∧ posts O k ≠ PostRaises KeyboardInterrupt) →
  chats ≠ [] →
  ∃ c' evs,
    send_telegram_message O chats m retries c = (Ok false, c', evs)
    ∧ length (post_events evs) = length chats * Z.to_nat retries
    ∧ length (sleep_events evs) = length chats * (Z.to_nat retries - 1)
    ∧ undelivered evs = chats.
Proof.
  intros Hsleep Hrej Hne. unfold send_telegram_message.
  erewrite bind_run_Ok by reflexivity.
  destruct (send_to_chats_all_fail O Hsleep Hrej m retries chats true c)
    as (c' & evs & -> & H1 & H2 & H3).
  exists c', (EvSend m :: evs). split; [by destruct chats|]. done.
Qed.

Lemma send_telegram_message_all_rejected_witness :
  ∃ c' evs,
    send_telegram_message O_rejecting two_chats MsgStopped 3 start
    = (Ok false, c', evs)
    ∧ length (post_events evs) = length two_chats * Z.to_nat 3
    ∧ length (sleep_events evs) = length two_chats * (Z.to_nat 3 - 1)
    ∧ undelivered evs = two_chats.
Proof.
  apply (send_telegram_message_all_rejected O_rejecting two_chats MsgStopped 3 start).
  - intros k. reflexivity.
  - intros k. split; [reflexivity|discriminate].
  - discriminate.
Defined.

(** ** Further properties: the loop *)

Section LoopRuns.

Context (O : oracle) (chats : list pystr).

Lemma next_state_invariant st fetched :
  current_markets_set st ≠ ∅ →
  consecutive_errors st < max_consecutive_errors →
  current_markets_set (next_state st fetched) ≠ ∅
  ∧ consecutive_errors (next_state st fetched) < max_consecutive_errors.
Proof.
  intros Hcur Herr.
  assert (next_errors (consecutive_errors st) < max_consecutive_errors) as Hnext.
  { unfold next_errors, max_consecutive_errors in *.
    destruct (10 <=? S (consecutive_errors st)) eqn:E; [lia|].
    apply Nat.leb_gt in E. lia. }
  unfold next_state, truthy.
  destruct fetched as [[s|] latency]; cbn [fst default from_option id].
  - case_bool_decide; cbn [current_markets_set consecutive_errors]; [|done].
    split; [done|]. unfold max_consecutive_errors. lia.
  - done.
Qed.

Lemma iterate_invariant n : ∀ st c st' c' evs,
  iterate O chats n st c = (Ok st', c', evs) →
  current_markets_set st ≠ ∅ →
  consecutive_errors st < max_consecutive_errors →
  current_markets_set st' ≠ ∅
  ∧ consecutive_errors st' < max_consecutive_errors.
Proof.
  induction n as [|n IH]; intros st c st' c' evs; cbn [iterate].
  - by intros [= <- <- <-].
  - intros (st1 & c1 & ev1 & ev2 & Hbody & Hrest & ->)%bind_Ok Hcur Herr.
    apply loop_body_Ok in Hbody as (_ & -> & _).
    destruct (next_state_invariant st (returned (gets O (n_get c))) Hcur Herr).
    by eapply IH.
Qed.

Lemma startup_Ok c st0 c1 ev0 :
  startup O chats c = (Ok (Some st0), c1, ev0) →
  current_markets_set st0 ≠ ∅ ∧ consecutive_errors st0 = 0.
Proof.
  unfold startup.
  intros (? & ? & ? & ? & _ & H & ->)%bind_Ok.
  apply bind_Ok in H as (initial & ? & ? & ? & _ & H & ->).
  destruct (truthy initial) eqn:Hinit; cbn [negb] in H.
  - apply bind_Ok in H as (? & ? & ? & ? & _ & H & ->).
    apply bind_Ok in H as (? & ? & ? & ? & _ & H & ->).
    unfold ret in H. simplify_eq. cbn. split; [|done].
    destruct initial as [s|]; [|done]. by apply bool_decide_eq_true in Hinit.
  - apply bind_Ok in H as (? & ? & ? & ? & _ & H & ->).
    apply bind_Ok in H as (? & ? & ? & ? & _ & H & ->).
    unfold ret in H. simplify_eq.
Qed.

(** Iterations that nothing interrupts. *)
Lemma iterate_returns n : ∀ st c,
  quiet O →
  (∀ j, j < n → interrupted (gets O (n_get c + j)) = false) →
  ∃ st' c' evs,
    iterate O chats n st c = (Ok st', c', evs)
    ∧ n_get c' = n_get c + n ∧ requests evs = n ∧ closes evs = 0.
Proof.
  induction n as [|n IH]; intros st c HO Hint; cbn [iterate].
  { eexists _, _, _. split; [reflexivity|]. split_and!; try done; lia. }
  pose proof (Hint 0 ltac:(lia)) as H0. rewrite Nat.add_0_r in H0.
  destruct (loop_body_returns O chats st c HO H0)
    as (c1 & ev1 & Hbody & Hn & _ & Hc & Hr).
  destruct (IH (next_state st (returned (gets O (n_get c)))) c1 HO)
    as (st' & c' & ev2 & Hrest & Hn' & Hr' & Hc').
  { intros j Hj. rewrite Hn.
    replace (S (n_get c) + j) with (n_get c + S j) by lia. apply Hint. lia. }
  eexists _, _, _. rewrite (bind_run_Ok _ _ _ _ _ _ Hbody), Hrest.
  split; [reflexivity|].
  rewrite requests_app, closes_app, Hr, Hr', Hc, Hc'. split_and!; try done; lia.
Qed.

Lemma loop_body_interrupted st c :
  interrupted (gets O (n_get c)) = true →
  loop_body O chats st c = (Raised KeyboardInterrupt, after_get c, [EvGet]).
Proof.
  unfold interrupted, loop_body, bind. rewrite get_upbit_markets_run.
  destruct (fetch (gets O (n_get c))) as [e|[s latency]]; [|done].
  by destruct e.
Qed.

(** Ctrl+C during the fetch of iteration [k]. *)
Lemma iterate_interrupted k : ∀ fuel st c,
  quiet O → k < fuel →
  (∀ j, j < k → interrupted (gets O (n_get c + j)) = false) →
  interrupted (gets O (n_get c + k)) = true →
  ∃ c' evs,
    iterate O chats fuel st c = (Raised KeyboardInterrupt, c', evs)
    ∧ requests evs = S k ∧ closes evs = 0.
Proof.
  induction k as [|k IH]; intros fuel st c HO Hfuel Hbefore Hint;
    (destruct fuel as [|fuel]; [lia|]); cbn [iterate].
  - rewrite Nat.add_0_r in Hint. unfold bind.
    rewrite (loop_body_interrupted st c Hint). by eexists _, _.
  - pose proof (Hbefore 0 ltac:(lia)) as H0. rewrite Nat.add_0_r in H0.
    destruct (loop_body_returns O chats st c HO H0)
      as (c1 & ev1 & Hbody & Hn & _ & Hc & Hr).
    destruct (IH fuel (next_state st (returned (gets O (n_get c)))) c1 HO)
      as (c' & ev2 & Hrest & Hr' & Hc'); [lia| | |].
    { intros j Hj. rewrite Hn.
      replace (S (n_get c) + j) with (n_get c + S j) by lia. apply Hbefore. lia. }
    { rewrite Hn. by replace (S (n_get c) + k) with (n_get c + S k) by lia. }
    eexists _, _. rewrite (bind_run_Ok _ _ _ _ _ _ Hbody), Hrest.
    split; [reflexivity|].
    rewrite requests_app, closes_app, Hr, Hr', Hc, Hc'. done.
Qed.

End LoopRuns.

(** X12.  The loop's state stays well-formed: from the state that start-up
    hands over, after any number of completed iterations the current set is
    non-empty and the failure counter is below the threshold. *)
Theorem loop_state_invariant (O : oracle) (chats : list pystr) (n : nat)
    (c : counters) (st0 : MonitorState) (c1 : counters) (ev0 : list event)
    (st : MonitorState) (c2 : counters) (ev1 : list event) :
  startup O chats c = (Ok (Some st0), c1, ev0) →
  iterate O chats n st0 c1 = (Ok st, c2, ev1) →
  current_markets_set st ≠ ∅
  ∧ consecutive_errors st < max_consecutive_errors.
Proof.
  intros [Hcur Herr]%startup_Ok Hrun.
  eapply iterate_invariant; [exact Hrun|done|].
  rewrite Herr. unfold max_consecutive_errors. lia.
Qed.

Lemma loop_state_invariant_witness :
  current_markets_set
    {| current_markets_set := {[KRW_BTC; KRW_ETH; KRW_XRP]};
       consecutive_errors := 2 |} ≠ ∅
  ∧ 2 < max_consecutive_errors.
Proof.
  apply (loop_state_invariant O_mixed two_chats 2
           {| n_get := 1; n_post := 0; n_sleep := 0; n_now := 0 |}
           {| current_markets_set := {[KRW_BTC; KRW_ETH; KRW_XRP]};
              consecutive_errors := 0 |}
           (startup O_mixed two_chats
              {| n_get := 1; n_post := 0; n_sleep := 0; n_now := 0 |}).1.2
           (startup O_mixed two_chats
              {| n_get := 1; n_post := 0; n_sleep := 0; n_now := 0 |}).2
           {| current_markets_set := {[KRW_BTC; KRW_ETH; KRW_XRP]};
              consecutive_errors := 2 |}
           (iterate O_mixed two_chats 2
              {| current_markets_set := {[KRW_BTC; KRW_ETH; KRW_XRP]};
                 consecutive_errors := 0 |}
              (startup O_mixed two_chats
                 {| n_get := 1; n_post := 0; n_sleep := 0; n_now := 0 |}).1.2).1.2
           (iterate O_mixed two_chats 2
              {| current_markets_set := {[KRW_BTC; KRW_ETH; KRW_XRP]};
                 consecutive_errors := 0 |}
              (startup O_mixed two_chats
                 {| n_get := 1; n_post := 0; n_sleep := 0; n_now := 0 |}).1.2).2).
  - vm_compute. reflexivity.
  - vm_compute. reflexivity.
Defined.

(** X13.  Nothing but an asynchronous exception ends the loop: as long as
    no fetch is interrupted and no sleep or post raises asynchronously, the
    loop is still running after any number of iterations, whatever the
    fetches fail with and whatever Telegram answers; it has made one request
    per iteration and has not closed the session. *)
Theorem loop_keeps_running (O : oracle) (chats : list pystr) (fuel : nat)
    (st : MonitorState) (c : counters) :
  quiet O →
  (∀ k, interrupted (gets O k) = false) →
  ∃ c' evs,
    guarded_loop O chats fuel st c = (OutOfFuel, c', evs)
    ∧ requests evs = fuel ∧ closes evs = 0.
Proof.
  intros HO Hint.
  destruct (iterate_returns O chats fuel st c HO) as (st' & c' & evs & Hrun & _ & Hr & Hc).
  { intros j _. apply Hint. }
  exists c', evs. by rewrite (guarded_loop_running O chats fuel st c st' c' evs Hrun).
Qed.

Lemma loop_keeps_running_witness :
  ∃ c' evs,
    guarded_loop O_down two_chats 25 st_btc start = (OutOfFuel, c', evs)
    ∧ requests evs = 25 ∧ closes evs = 0.
Proof.
  apply (loop_keeps_running O_down two_chats 25 st_btc start).
  - apply quiet_calm.
  - intros k. reflexivity.
Defined.

(** X14.  Ctrl+C during the fetch of iteration k ends the loop in that
    iteration: for every observation longer than k iterations the function
    returns normally, the stop notification being its last dispatch, after
    k + 1 requests and with the session closed exactly once. *)
Theorem interrupt_stops_loop (O : oracle) (chats : list pystr) (k fuel : nat)
    (st : MonitorState) (c : counters) :
  quiet O →
  k < fuel →
  (∀ j, j < k → interrupted (gets O (n_get c + j)) = false) →
  interrupted (gets O (n_get c + k)) = true →
  ∃ c' evs,
    guarded_loop O chats fuel st c = (Ok tt, c', evs)
    ∧ last (sends evs) = Some MsgStopped
    ∧ requests evs = S k ∧ closes evs = 1.
Proof.
  intros HO Hfuel Hbefore Hint.
  destruct (iterate_interrupted O chats k fuel st c HO Hfuel Hbefore Hint)
    as (c1 & ev1 & Hrun & Hr & Hc).
  destruct (send_telegram_message_returns O chats MsgStopped 3 c1 HO)
    as (b & c2 & ev2 & Hsend & Hs2 & Hc2 & Hr2 & _).
  eexists _, _. split.
  { exact (guarded_loop_exit O chats fuel st c KeyboardInterrupt c1 ev1 b c2 ev2
             Hrun Hsend). }
  change (EvLog (exit_log KeyboardInterrupt) :: ev2 ++ [EvClose])
    with ([EvLog (exit_log KeyboardInterrupt)] ++ ev2 ++ [EvClose]).
  rewrite !sends_app, !requests_app, !closes_app, Hs2, Hc2, Hr2, Hr, Hc.
  split_and!; [|done..]. simpl. by rewrite last_snoc.
Qed.

Lemma interrupt_stops_loop_witness :
  ∃ c' evs,
    guarded_loop O_stopped two_chats 9 st_btc_eth start = (Ok tt, c', evs)
    ∧ last (sends evs) = Some MsgStopped
    ∧ requests evs = 4 ∧ closes evs = 1.
Proof.
  apply (interrupt_stops_loop O_stopped two_chats 3 9 st_btc_eth start).
  - apply quiet_calm.
  - lia.
  - intros j Hj. do 3 (destruct j as [|j]; [reflexivity|]). lia.
  - reflexivity.
Defined.

(** ** Further properties: start-up *)

Section Bootstrapping.

Context (O : oracle) (chats : list pystr).

Lemma get_upbit_markets_sleeps c :
  sleep_events (get_upbit_markets O c).2 = [].
Proof.
  rewrite get_upbit_markets_run.
  destruct (fetch (gets O (n_get c))) as [e|[s latency]]; [|done].
  by destruct (is_Exception e).
Qed.

Lemma returned_truthy reply markets latency :
  returned reply = (markets, latency) → truthy markets = true →
  ∃ s, markets = Some s ∧ s ≠ ∅ ∧ fetch reply = inr (s, latency).
Proof.
  unfold returned, truthy.
  destruct (fetch reply) as [e|[s l]]; intros [= <- <-]; [done|].
  intros Hs%bool_decide_eq_true. by exists s.
Qed.

Lemma returned_falsy reply markets latency :
  returned reply = (markets, latency) → truthy markets = false →
  interrupted reply = false → failing reply = true.
Proof.
  unfold returned, truthy, interrupted, failing.
  destruct (fetch reply) as [e|[s l]]; intros [= <- <-].
  - intros _. by destruct (is_Exception e).
  - intros Hs%bool_decide_eq_false _. apply bool_decide_eq_true.
    by apply dec_stable.
Qed.

Lemma boot_pause_Ok (b : bool) c a c1 ev :
  (if b then log LogBootRetry;; sleep O RETRY_DELAY else ret tt) c
  = (Ok a, c1, ev) →
  n_get c1 = n_get c ∧ requests ev = 0 ∧ sends ev = []
  ∧ sleep_events ev = if b then [RETRY_DELAY] else [].
Proof.
  destruct b.
  - intros (? & ? & ? & ? & Hlog & Hsleep & ->)%bind_Ok.
    unfold log, emit in Hlog. simplify_eq.
    unfold sleep in Hsleep. destruct (sleeps O _); by simplify_eq.
  - by intros [= <- <- <-].
Qed.

Lemma initial_attempts_Ok left : ∀ attempt c r c' evs,
  attempt + left = MAX_RETRIES →
  initial_attempts O attempt left c = (Ok r, c', evs) →
  ∃ i,
    n_get c' = n_get c + i ∧ requests evs = i ∧ i ≤ left ∧ sends evs = []
    ∧ match r with
      | Some s =>
          s ≠ ∅ ∧ 1 ≤ i
          ∧ (∃ latency, fetch (gets O (n_get c + (i - 1))) = inr (s, latency))
          ∧ (∀ j, j < i - 1 → failing (gets O (n_get c + j)) = true)
          ∧ sleep_events evs = replicate (i - 1) RETRY_DELAY
      | None =>
          i = left
          ∧ (∀ j, j < left → failing (gets O (n_get c + j)) = true)
          ∧ sleep_events evs = replicate (left - 1) RETRY_DELAY
      end.
Proof.
  unfold MAX_RETRIES.
  induction left as [|left IH]; intros attempt c r c' evs Hsum;
    cbn [initial_attempts].
  { intros [= <- <- <-]. exists 0. split_and!; try done; try lia. }
  intros ([] & c0 & ev0 & ? & Hlog & H & ->)%bind_Ok.
  unfold log, emit in Hlog. injection Hlog as <- <-.
  apply bind_Ok in H as (fetched & c1 & evg & ev2 & Hget & Hafter & ->).
  pose proof (get_upbit_markets_sleeps c) as Hgsl. rewrite Hget in Hgsl.
  cbn [snd] in Hgsl.
  apply get_upbit_markets_Ok in Hget as (-> & -> & Hint & Hgs & _ & Hgr).
  destruct (returned (gets O (n_get c))) as [markets latency] eqn:Hret.
  unfold after_attempt in Hafter.
  destruct (truthy markets) eqn:Htruthy.
  - unfold ret in Hafter. simplify_eq.
    destruct (returned_truthy _ _ _ Hret Htruthy) as (s & -> & Hs & Hfetch).
    exists 1. cbn [n_get after_get].
    rewrite !requests_app, !sends_app, !sleep_events_app, Hgs, Hgr, Hgsl.
    rewrite Nat.add_0_r. split_and!; try done; try lia.
    exists latency. by rewrite Nat.sub_diag, Nat.add_0_r.
  - pose proof (returned_falsy _ _ _ Hret Htruthy Hint) as Hfail.
    apply bind_Ok in Hafter as (? & c2 & evp & ev3 & Hpause & Hrec & ->).
    apply boot_pause_Ok in Hpause as (Hpn & Hpr & Hps & Hpsl).
    apply IH in Hrec as (i & Hn & Hr & Hi & Hs & Hres); [|lia].
    exists (S i). cbn [n_get after_get] in *.
    rewrite !requests_app, !sends_app, !sleep_events_app.
    rewrite Hgs, Hgr, Hgsl, Hpr, Hps, Hpsl, Hr, Hs, Hn, Hpn.
    split_and!; try done; try lia.
    destruct r as [s|].
    + destruct Hres as (Hs' & Hi1 & (lat & Hfetch) & Hfails & Hsl).
      rewrite Hpn in Hfetch, Hfails. cbn [n_get after_get] in Hfetch, Hfails.
      split_and!; try done; try lia.
      * exists lat. rewrite <- Hfetch. f_equal. f_equal. lia.
      * intros j Hj. destruct j as [|j]; [by rewrite Nat.add_0_r|].
        replace (n_get c + S j) with (S (n_get c) + j) by lia.
        apply Hfails. lia.
      * rewrite Hsl.
        destruct (Nat.ltb_spec attempt (MAX_RETRIES - 1)) as [_|Hge];
          [|unfold MAX_RETRIES in *; lia].
        cbn. destruct i as [|i]; [lia|]. cbn. by rewrite Nat.sub_0_r.
    + destruct Hres as (-> & Hfails & Hsl).
      rewrite Hpn in Hfails. cbn [n_get after_get] in Hfails.
      split_and!; try done.
      * intros j Hj. destruct j as [|j]; [by rewrite Nat.add_0_r|].
        replace (n_get c + S j) with (S (n_get c) + j) by lia.
        apply Hfails. lia.
      * rewrite Hsl. cbn [Nat.sub]. rewrite Nat.sub_0_r.
        destruct (Nat.ltb_spec attempt (MAX_RETRIES - 1)) as [Hlt|Hge];
          unfold MAX_RETRIES in *.
        -- destruct left as [|left]; [lia|]. cbn. by rewrite Nat.sub_0_r.
        -- assert (left = 0) as -> by lia. done.
Qed.

Lemma initial_attempts_interrupted left : ∀ i attempt c,
  quiet O → i < left →
  (∀ j, j < i → failing (gets O (n_get c + j)) = true) →
  interrupted (gets O (n_get c + i)) = true →
  ∃ c' evs,
    initial_attempts O attempt left c = (Raised KeyboardInterrupt, c', evs)
    ∧ sends evs = [] ∧ closes evs = 0 ∧ requests evs = S i.
Proof.
  induction left as [|left IH]; intros i attempt c HO Hi Hfail Hint; [lia|].
  cbn [initial_attempts]. destruct i as [|i].
  - rewrite Nat.add_0_r in Hint.
    erewrite bind_run_Ok by reflexivity. unfold bind.
    rewrite get_upbit_markets_run. unfold interrupted in Hint.
    destruct (fetch (gets O (n_get c))) as [e|[s latency]]; [|done].
    destruct e; try done. by eexists _, _.
  - pose proof (Hfail 0 ltac:(lia)) as H0. rewrite Nat.add_0_r in H0.
    destruct (attempt_failing O attempt (initial_attempts O (S attempt) left) c HO H0)
      as (c1 & ev1 & -> & Hn & Hs1 & Hc1 & Hr1).
    destruct (IH i (S attempt) c1 HO) as (c' & evs & -> & Hs & Hc & Hr); [lia| | |].
    { intros j Hj. rewrite Hn.
      replace (S (n_get c) + j) with (n_get c + S j) by lia. apply Hfail. lia. }
    { rewrite Hn. by replace (S (n_get c) + i) with (n_get c + S i) by lia. }
    eexists _, _. split; [reflexivity|].
    rewrite sends_app, closes_app, requests_app, Hs1, Hc1, Hr1, Hs, Hc, Hr.
    done.
Qed.

End Bootstrapping.

(** X15.  When [wait_for_initial_markets] returns, it has made at most
    three fetches and dispatched nothing.  A returned set is non-empty and
    is what the last of these fetches returned, every earlier one having
    failed; [None] comes after exactly three failed fetches.  Between two
    attempts it pauses for [RETRY_DELAY], and never after the last one. *)
Theorem wait_for_initial_markets_result (O : oracle) (c : counters)
    (r : option (gset (list N))) (c' : counters) (evs : list event) :
  wait_for_initial_markets O c = (Ok r, c', evs) →
  ∃ i,
    n_get c' = n_get c + i ∧ requests evs = i ∧ i ≤ MAX_RETRIES
    ∧ sends evs = []
    ∧ match r with
      | Some s =>
          s ≠ ∅ ∧ 1 ≤ i
          ∧ (∃ latency, fetch (gets O (n_get c + (i - 1))) = inr (s, latency))
          ∧ (∀ j, j < i - 1 → failing (gets O (n_get c + j)) = true)
          ∧ sleep_events evs = replicate (i - 1) RETRY_DELAY
      | None =>
          i = MAX_RETRIES
          ∧ (∀ j, j < MAX_RETRIES → failing (gets O (n_get c + j)) = true)
          ∧ sleep_events evs = [RETRY_DELAY; RETRY_DELAY]
      end.
Proof.
  intros Hrun. unfold wait_for_initial_markets in Hrun.
  apply initial_attempts_Ok in Hrun as (i & Hres); [|done].
  exists i. destruct r; exact Hres.
Qed.

Lemma wait_for_initial_markets_result_witness :
  ∃ i,
    n_get (wait_for_initial_markets O_mixed start).1.2 = n_get start + i
    ∧ requests (wait_for_initial_markets O_mixed start).2 = i
    ∧ i ≤ MAX_RETRIES
    ∧ sends (wait_for_initial_markets O_mixed start).2 = []
    ∧ ({[KRW_BTC; KRW_ETH; KRW_XRP]} : gset (list N)) ≠ ∅ ∧ 1 ≤ i
    ∧ (∃ latency, fetch (gets O_mixed (n_get start + (i - 1)))
                  = inr ({[KRW_BTC; KRW_ETH; KRW_XRP]}, latency))
    ∧ (∀ j, j < i - 1 → failing (gets O_mixed (n_get start + j)) = true)
    ∧ sleep_events (wait_for_initial_markets O_mixed start).2
      = replicate (i - 1) RETRY_DELAY.
Proof.
  apply (wait_for_initial_markets_result O_mixed start
           (Some {[KRW_BTC; KRW_ETH; KRW_XRP]})
           (wait_for_initial_markets O_mixed start).1.2
           (wait_for_initial_markets O_mixed start).2).
  vm_compute. reflexivity.
Defined.

(** X16.  Ctrl+C during a bootstrapping fetch is not handled: the exception
    leaves [monitor_upbit_listings] and ends the process uncaught, no
    notification is dispatched (not the stop notification either) and the
    session is not closed. *)
Theorem interrupt_while_bootstrapping (env : environ) (O : oracle)
    (ids : list pystr) (i fuel : nat) :
  load_config env = inr ids →
  quiet O →
  i < MAX_RETRIES →
  (∀ j, j < i → failing (gets O j) = true) →
  interrupted (gets O i) = true →
  ∃ evs,
    main env O fuel = (Uncaught KeyboardInterrupt, evs)
    ∧ sends evs = [] ∧ closes evs = 0 ∧ requests evs = S i.
Proof.
  intros Hcfg HO Hi Hfail Hint.
  destruct (initial_attempts_interrupted O MAX_RETRIES i 0 start HO Hi)
    as (c' & evs & Hrun & Hs & Hc & Hr); [done..|].
  unfold main, monitor_upbit_listings, startup. rewrite Hcfg.
  unfold bind at 1 2 3, log at 1, emit.
  unfold wait_for_initial_markets. rewrite Hrun.
  eexists. split; [reflexivity|].
  change (EvPrint (NoticeRecipients (length ids)) :: EvOpen :: [EvLog LogStart] ++ evs)
    with ([EvPrint (NoticeRecipients (length ids)); EvOpen; EvLog LogStart] ++ evs).
  by rewrite sends_app, closes_app, requests_app, Hs, Hc, Hr.
Qed.

Lemma interrupt_while_bootstrapping_witness :
  ∃ evs,
    main env_ok O_early_stop 5 = (Uncaught KeyboardInterrupt, evs)
    ∧ sends evs = [] ∧ closes evs = 0 ∧ requests evs = 2.
Proof.
  apply (interrupt_while_bootstrapping env_ok O_early_stop two_chats 1 5).
  - vm_compute. reflexivity.
  - apply quiet_calm.
  - unfold MAX_RETRIES. lia.
  - intros j Hj. destruct j as [|j]; [reflexivity|lia].
  - reflexivity.
Defined.

(** ** Further properties: leaving the loop *)

(** X17.  The session is closed exactly when the loop is left: while the
    loop runs it stays open, and every way out of the loop (the handler
    returning, or its own notification being interrupted and the exception
    propagating) closes it exactly once, as the last thing the function
    does. *)
Theorem session_closed_on_loop_exit (O : oracle) (chats : list pystr)
    (fuel : nat) (st : MonitorState) (c : counters) :
  match (guarded_loop O chats fuel st c).1.1 with
  | OutOfFuel => closes (guarded_loop O chats fuel st c).2 = 0
  | _ => closes (guarded_loop O chats fuel st c).2 = 1
         ∧ last (guarded_loop O chats fuel st c).2 = Some EvClose
  end.
Proof.
  unfold guarded_loop, finally, catch, while_true, bind.
  pose proof (iterate_closes O chats fuel st c) as Hc.
  destruct (iterate O chats fuel st c) as [[[st'|e|] c1] ev1];
    cbn [fst snd out_of_fuel] in *.
  - by rewrite closes_app, Hc.
  - pose proof (dispatches_loop_handler O chats e c1) as (_ & Hh & _).
    destruct (loop_handler O chats e c1) as [[[[]|e'|] c2] ev2];
      cbn [fst snd session_close emit] in *.
    + rewrite !closes_app, Hc, Hh. split; [done|]. by rewrite last_snoc.
    + rewrite !closes_app, Hc, Hh. split; [done|]. by rewrite last_snoc.
    + by rewrite closes_app, Hc, Hh.
  - done.
Qed.

(** X18.  An iteration that completes has made exactly one request and at
    most one dispatch, and ends with its pause: the polling interval after
    an accepted fetch, three times the interval after a failed one. *)
Theorem iteration_shape (O : oracle) (chats : list pystr)
    (st : MonitorState) (c : counters)
    (st' : MonitorState) (c' : counters) (evs : list event) :
  loop_body O chats st c = (Ok st', c', evs) →
  requests evs = 1
  ∧ length (sends evs) ≤ 1
  ∧ last evs
    = Some (EvSleep (if truthy (returned (gets O (n_get c))).1
                     then CHECK_INTERVAL_SECONDS
                     else CHECK_INTERVAL_SECONDS * 3)).
Proof.
  intros Hrun.
  pose proof (loop_body_Ok O chats st c st' c' evs Hrun)
    as (_ & _ & _ & Hs & _ & Hr).
  split_and!; [done| |].
  - rewrite Hs. unfold expected_sends.
    repeat (case_bool_decide || case_match); simpl; lia.
  - apply bind_Ok in Hrun as (fetched & c1 & ev1 & ev2 & Hget & Hstep & ->).
    apply get_upbit_markets_Ok in Hget as (-> & _).
    destruct (returned (gets O (n_get c))) as [new latency].
    unfold loop_step in Hstep. cbn [fst].
    destruct (truthy new); cbn [negb] in Hstep.
    + apply bind_Ok in Hstep as (? & ? & ? & ? & _ & H & ->).
      apply bind_Ok in H as (? & ? & ? & ? & _ & H & ->).
      apply bind_Ok in H as (? & ? & ? & evr & Hsleep & H & ->).
      unfold ret in H. injection H as _ _ <-.
      apply sleep_Ok in Hsleep as (-> & _).
      rewrite app_nil_r, !app_assoc. apply last_snoc.
    + apply bind_Ok in Hstep as (? & ? & ? & ? & _ & H & ->).
      apply bind_Ok in H as (? & ? & ? & ? & _ & H & ->).
      apply bind_Ok in H as (? & ? & ? & evr & Hsleep & H & ->).
      unfold ret in H. injection H as _ _ <-.
      apply sleep_Ok in Hsleep as (-> & _).
      rewrite app_nil_r, !app_assoc. apply last_snoc.
Qed.

Lemma iteration_shape_witness :
  requests (loop_body O_down two_chats st_btc start).2 = 1
  ∧ length (sends (loop_body O_down two_chats st_btc start).2) ≤ 1
  ∧ last (loop_body O_down two_chats st_btc start).2
    = Some (EvSleep (if truthy (returned (gets O_down (n_get start))).1
                     then CHECK_INTERVAL_SECONDS
                     else CHECK_INTERVAL_SECONDS * 3)).
Proof.
  apply (iteration_shape O_down two_chats st_btc start
           {| current_markets_set := {[KRW_BTC]}; consecutive_errors := 1 |}
           (loop_body O_down two_chats st_btc start).1.2).
  vm_compute. reflexivity.
Defined.

Example scenario_second_interrupt :
  (main env_ok O_stopped_twice 9).1 = Uncaught KeyboardInterrupt
  ∧ sends (main env_ok O_stopped_twice 9).2 = [MsgStarted 2; MsgStopped]
  ∧ closes (main env_ok O_stopped_twice 9).2 = 1.
Proof. split_and!; vm_compute; reflexivity. Qed.

(** ** Further properties: one chat's share of a call *)

Section ChatRuns.

Context (O : oracle).

Lemma post_attempts_trace chat m retries left : ∀ attempt c,
  attempt + left = Z.to_nat retries →
  attempts_trace chat m left (post_attempts O chat m retries attempt left c).2.
Proof.
  induction left as [|left IH]; intros attempt c Hsum; cbn [post_attempts].
  { apply trace_none. }
  assert (∀ l c0 r,
    retry_log l → is_200 r = false →
    attempts_trace chat m (S left)
      (EvPost chat m r
       :: ((log l;;
            (if (Z.of_nat attempt <? retries - 1)%Z
             then sleep O 1 else ret tt);;
            post_attempts O chat m retries (S attempt) left) c0).2))
    as Hretry.
  { intros l c0 r Hl Hr. erewrite bind_run_Ok by reflexivity.
    destruct (Z.of_nat attempt <? retries - 1)%Z eqn:Hcond.
    - apply Z.ltb_lt in Hcond. assert (1 ≤ left) as Hleft by lia.
      unfold bind, sleep. destruct (sleeps O (n_sleep c0)).
      + cbn. apply trace_retry; [done..|apply trace_none].
      + match goal with |- context [post_attempts O chat m retries ?a left ?c1] =>
          specialize (IH a c1 ltac:(lia));
          destruct (post_attempts O chat m retries a left c1) as [[r' c2] ev2]
        end.
        cbn in *. by apply trace_retry.
    - apply Z.ltb_ge in Hcond. assert (left = 0) as -> by lia.
      cbn. by apply trace_exhausted. }
  erewrite bind_run_Ok by reflexivity.
  destruct (posts O (n_post c)) as [e|status body] eqn:Hreply.
  - destruct e; cbn [is_Exception];
      try (match goal with |- context [bind (log ?l) ?k ?c0] =>
             specialize (Hretry l c0 (posts O (n_post c)) I);
             rewrite Hreply in Hretry; specialize (Hretry eq_refl);
             destruct (bind (log l) k c0) as [[r' c2] ev2]
           end; exact Hretry).
    cbn. apply trace_last.
  - destruct (status =? 200)%Z eqn:Hs; [cbn; apply trace_last|].
    match goal with |- context [bind (log ?l) ?k ?c0] =>
      specialize (Hretry l c0 (posts O (n_post c)) I);
      rewrite Hreply in Hretry; specialize (Hretry Hs);
      destruct (bind (log l) k c0) as [[r' c2] ev2]
    end.
    exact Hretry.
Qed.

Lemma post_events_post chat m r evs :
  post_events (EvPost chat m r :: evs) = (chat, m, r) :: post_events evs.
Proof. done. Qed.

Lemma post_events_log l evs : post_events (EvLog l :: evs) = post_events evs.
Proof. done. Qed.

Lemma post_events_sleep d evs : post_events (EvSleep d :: evs) = post_events evs.
Proof. done. Qed.

Lemma sleep_events_post chat m r evs :
  sleep_events (EvPost chat m r :: evs) = sleep_events evs.
Proof. done. Qed.

Lemma sleep_events_log l evs : sleep_events (EvLog l :: evs) = sleep_events evs.
Proof. done. Qed.

Lemma sleep_events_sleep d evs :
  sleep_events (EvSleep d :: evs) = d :: sleep_events evs.
Proof. done. Qed.

Lemma undelivered_post chat m r evs :
  undelivered (EvPost chat m r :: evs) = undelivered evs.
Proof. done. Qed.

Lemma undelivered_sleep d evs : undelivered (EvSleep d :: evs) = undelivered evs.
Proof. done. Qed.

Lemma undelivered_retry_log l evs :
  retry_log l → undelivered (EvLog l :: evs) = undelivered evs.
Proof. by destruct l. Qed.

(** What a trace of attempts amounts to. *)
Lemma attempts_trace_run chat m left run :
  attempts_trace chat m left run →
  posts_to chat m run
  ∧ length (post_events run) ≤ left
  ∧ length (sleep_events run) ≤ left - 1
  ∧ (∀ pre d post,
       run = pre ++ EvSleep d :: post →
       d = 1%Q
       ∧ length (post_events pre) < left
       ∧ ∃ r, last (post_events pre) = Some (chat, m, r) ∧ is_200 r = false)
  ∧ undelivered run = [].
Proof.
  unfold posts_to.
  induction 1 as [left|left r|left r l rest Hl Hr Hleft Hrest IH|r l Hl Hr].
  - split_and!; try done; try (simpl; lia).
    intros [|? ?] d post; discriminate.
  - split_and!; try done; try (simpl; lia).
    + by repeat constructor.
    + intros [|? [|? ?]] d post; discriminate.
  - destruct IH as (Hto & Hposts & Hsleeps & Hsplit & Hund).
    rewrite post_events_post, post_events_log, post_events_sleep.
    rewrite sleep_events_post, sleep_events_log, sleep_events_sleep.
    rewrite undelivered_post, undelivered_retry_log, undelivered_sleep by done.
    cbn [length]. split_and!; [by constructor|lia|lia| |done].
    intros [|e1 [|e2 [|e3 pre]]] d post Heq; simpl in Heq; simplify_eq.
    + rewrite post_events_post, post_events_log. cbn.
      split_and!; [done|lia|by eexists].
    + destruct (Hsplit pre d post eq_refl) as (-> & Hlt & r' & Hlast & Hr').
      rewrite post_events_post, post_events_log, post_events_sleep.
      cbn [length]. split_and!; [done|lia|].
      exists r'. split; [|done]. by apply last_cons_Some.
  - rewrite post_events_post, post_events_log.
    rewrite sleep_events_post, sleep_events_log.
    rewrite undelivered_post, undelivered_retry_log by done.
    split_and!; [by repeat constructor|simpl; lia|simpl; lia| |done].
    intros [|e1 [|e2 [|e3 pre]]] d post Heq; simpl in Heq; simplify_eq.
Qed.

Lemma chat_run_flag chat m retries left run (flag : list event) :
  left ≤ Z.to_nat retries →
  attempts_trace chat m left run →
  flag = [] ∨ flag = [EvLog (LogUndelivered chat retries)] →
  chat_run chat m (Z.to_nat retries) (run ++ flag).
Proof.
  intros Hle (Hto & Hposts & Hsleeps & Hsplit & Hund)%attempts_trace_run Hflag.
  unfold chat_run, posts_to in *.
  assert (post_events flag = [] ∧ sleep_events flag = []) as [Hfp Hfs].
  { by destruct Hflag as [-> | ->]. }
  rewrite post_events_app, sleep_events_app, undelivered_app, Hfp, Hfs, Hund.
  rewrite !app_nil_r. split_and!; try done; try lia.
  - intros pre d post Heq.
    assert (∃ post', run = pre ++ EvSleep d :: post') as [post' Hrun].
    { destruct Hflag as [-> | ->].
      - exists post. by rewrite app_nil_r in Heq.
      - destruct (decide (post = [])) as [->|Hne].
        + change (pre ++ [EvSleep d]) with (pre ++ [EvSleep d]) in Heq.
          apply app_inj_tail in Heq as [_ Heq]. discriminate.
        + destruct (exists_last Hne) as (post' & x & ->).
          exists post'.
          change (pre ++ EvSleep d :: post' ++ [x])
            with (pre ++ (EvSleep d :: post') ++ [x]) in Heq.
          rewrite app_assoc in Heq. by apply app_inj_tail in Heq as [? _]. }
    destruct (Hsplit pre d post' Hrun) as (? & ? & ?). split_and!; [done|lia|done].
  - destruct Hflag as [-> | ->]; [by left|by right].
Qed.

Lemma send_to_chats_runs m retries chats : ∀ all c,
  ∃ runs,
    (send_to_chats O chats m retries all c).2 = concat runs
    ∧ length runs ≤ length chats
    ∧ Forall2 (λ chat run, chat_run chat m (Z.to_nat retries) run)
        (take (length runs) chats) runs.
Proof.
  induction chats as [|chat rest IH]; intros all c; cbn [send_to_chats].
  { exists []. split_and!; [done|done|constructor]. }
  unfold send_to_chat, bind.
  pose proof (post_attempts_trace chat m retries (Z.to_nat retries) 0 c eq_refl)
    as Htrace.
  destruct (post_attempts O chat m retries 0 (Z.to_nat retries) c)
    as [[[sent|e|] c1] ev1]; cbn [fst snd] in *.
  - destruct sent; cbn.
    + destruct (IH all c1) as (runs & Hev & Hlen & Hruns).
      destruct (send_to_chats O rest m retries all c1) as [[r c2] ev2].
      cbn [fst snd] in *. exists ((ev1 ++ []) :: runs). subst ev2.
      split_and!; [done|simpl; lia|]. cbn. constructor; [|done].
      apply (chat_run_flag chat m retries (Z.to_nat retries)); auto.
    + destruct (IH false c1) as (runs & Hev & Hlen & Hruns).
      destruct (send_to_chats O rest m retries false c1) as [[r c2] ev2].
      cbn [fst snd] in *.
      exists ((ev1 ++ [EvLog (LogUndelivered chat retries)]) :: runs). subst ev2.
      split_and!; [done|simpl; lia|]. cbn. constructor; [|done].
      apply (chat_run_flag chat m retries (Z.to_nat retries)); auto.
  - exists [ev1 ++ []]. split_and!; [simpl; by rewrite !app_nil_r|simpl; lia|].
    cbn. constructor; [|constructor].
    apply (chat_run_flag chat m retries (Z.to_nat retries)); auto.
  - exists [ev1 ++ []]. split_and!; [simpl; by rewrite !app_nil_r|simpl; lia|].
    cbn. constructor; [|constructor].
    apply (chat_run_flag chat m retries (Z.to_nat retries)); auto.
Qed.

End ChatRuns.

Section ChatRunsRejected.

Context (O : oracle).
Context (Hsleep : ∀ k, sleeps O k = None).
Context (Hrejected : ∀ k, is_200 (posts O k) = false
                          ∧ posts O k ≠ PostRaises KeyboardInterrupt).

Lemma send_to_chats_rejected_runs m retries chats : ∀ all c,
  ∃ c' runs,
    send_to_chats O chats m retries all c
    = (Ok (if chats is [] then all else false), c', concat runs)
    ∧ Forall2 (λ chat run, rejected_run chat m (Z.to_nat retries) run)
        chats runs.
Proof.
  induction chats as [|chat rest IH]; intros all c; cbn [send_to_chats].
  { exists c, []. split; [done|constructor]. }
  destruct (post_attempts_all_fail O Hsleep Hrejected chat m retries
              (Z.to_nat retries) 0 c eq_refl)
    as (c1 & ev1 & Hone & H1 & H2 & H3).
  pose proof (post_attempts_bounds O chat m retries (Z.to_nat retries) 0 c eq_refl)
    as (_ & _ & Hones & _).
  pose proof (post_attempts_trace O chat m retries (Z.to_nat retries) 0 c eq_refl)
    as (Hto & _)%attempts_trace_run.
  rewrite Hone in Hones, Hto. cbn [snd] in Hones, Hto.
  destruct (IH false c1) as (c2 & runs & Hrest & Hruns).
  exists c2, ((ev1 ++ [EvLog (LogUndelivered chat retries)]) :: runs). split.
  - unfold send_to_chat. unfold bind at 1 2. rewrite Hone.
    unfold bind at 1, log, emit, ret at 1. rewrite Hrest.
    cbn. rewrite <- app_assoc. by destruct rest.
  - constructor; [|done]. unfold rejected_run, posts_to in *.
    rewrite post_events_app, sleep_events_app, undelivered_app, H3.
    cbn. rewrite !app_nil_r. split_and!; try done.
    symmetry. apply replicate_as_Forall_2; [done|].
    eapply Forall_impl; [exact Hones|]. by intros d ->.
Qed.

End ChatRunsRejected.

(** X8.  However a call of the dispatcher ends, what it did after the call
    marker splits into one run per chat it got to, in the order of the
    list.  In the run of a chat every post goes to that chat with the
    message of the call; there are at most [retries] posts and at most
    [retries - 1] pauses; every pause lasts one second and follows a failed
    attempt that was not the [retries]-th, so none follows the chat's last
    attempt; and the chat is logged as undelivered at most once. *)
Theorem send_telegram_message_per_chat (O : oracle) (chats : list pystr)
    (m : message) (retries : Z) (c : counters) :
  ∃ runs,
    (send_telegram_message O chats m retries c).2 = EvSend m :: concat runs
    ∧ length runs ≤ length chats
    ∧ Forall2 (λ chat run, chat_run chat m (Z.to_nat retries) run)
        (take (length runs) chats) runs.
Proof.
  unfold send_telegram_message, bind, emit.
  destruct (send_to_chats_runs O m retries chats true c)
    as (runs & Hev & Hlen & Hruns).
  destruct (send_to_chats O chats m retries true c) as [[r c2] ev2].
  cbn [fst snd] in *. exists runs. by rewrite Hev.
Qed.

(** X11.  When Telegram rejects every attempt (no answer is 200, nothing
    interrupts), the call returns false (for a non-empty chat list) and
    what it did splits into exactly one run per chat, in the order of the
    list: [retries] posts to that chat, [retries - 1] pauses of one second,
    and the chat logged as undelivered once. *)
Theorem send_telegram_message_rejected_per_chat (O : oracle)
    (chats : list pystr) (m : message) (retries : Z) (c : counters) :
  (∀ k, sleeps O k = None) →
  (∀ k, is_200 (posts O k) = false ∧ posts O k ≠ PostRaises KeyboardInterrupt) →
  chats ≠ [] →
  ∃ c' runs,
    send_telegram_message O chats m retries c
    = (Ok false, c', EvSend m :: concat runs)
    ∧ Forall2 (λ chat run, rejected_run chat m (Z.to_nat retries) run)
        chats runs.
Proof.
  intros Hsleep Hrej Hne. unfold send_telegram_message.
  erewrite bind_run_Ok by reflexivity.
  destruct (send_to_chats_rejected_runs O Hsleep Hrej m retries chats true c)
    as (c' & runs & -> & Hruns).
  exists c', runs. split; [by destruct chats|done].
Qed.

Lemma send_telegram_message_rejected_per_chat_witness :
  ∃ c' runs,
    send_telegram_message O_rejecting two_chats MsgStopped 3 start
    = (Ok false, c', EvSend MsgStopped :: concat runs)
    ∧ Forall2 (λ chat run, rejected_run chat MsgStopped (Z.to_nat 3) run)
        two_chats runs.
Proof.
  apply (send_telegram_message_rejected_per_chat O_rejecting two_chats
           MsgStopped 3 start).
  - intros k. reflexivity.
  - intros k. split; [reflexivity|discriminate].
  - discriminate.
Defined.
